(** * Helpdesk ticketing core (medium-python): store, rate limiter, policy,
    triage, ticket service and SLA reporting.

    The Python modules [store.py], [rate_limit.py], [policy.py], [triage.py],
    [service.py] and [reporting.py] are embedded as Rocq functions.  The
    store is a record that is passed in and handed back by every operation
    (the Python code mutates one [InMemoryStore] object in place); an
    operation that raises still hands back the store as the exception left
    it. *)

From Stdlib Require Import ZArith NArith Lia Ascii DecimalString DecimalN.
From Stdlib Require String.
From stdpp Require Import base option list gmap strings fin_maps.

Local Open Scope Z_scope.

(** ** Python strings *)

Module PyStr.

(** [str.lower()] on ASCII text: only [A]..[Z] change. *)
Definition lower_char (c : ascii) : ascii :=
  let n := N_of_ascii c in
  if ((65 <=? n) && (n <=? 90))%N then ascii_of_N (n + 32) else c.

Fixpoint lower (s : string) : string :=
  match s with
  | EmptyString => EmptyString
  | String c r => String (lower_char c) (lower r)
  end.

(** [w in s] for strings: [w] occurs in [s] as a contiguous block. *)
Fixpoint contains (w s : string) : bool :=
  String.prefix w s ||
  match s with
  | EmptyString => false
  | String _ r => contains w r
  end.

Definition dash : ascii := "-"%char.
Definition zero : ascii := "0"%char.

Fixpoint has_dash (s : string) : bool :=
  match s with
  | EmptyString => false
  | String c r => if Ascii.eqb c dash then true else has_dash r
  end.

(** [s.rsplit("-", 1)[-1]]: what follows the last dash of [s] (all of
    [s] when it has none). *)
Fixpoint after_last_dash (s : string) : string :=
  match s with
  | EmptyString => EmptyString
  | String c r =>
      if has_dash r then after_last_dash r
      else if Ascii.eqb c dash then r else s
  end.

Fixpoint replicate_char (n : nat) (c : ascii) : string :=
  match n with
  | O => EmptyString
  | S k => String c (replicate_char k c)
  end.

(** The format specification [04d] applied to a natural number: the
    decimal digits, filled with zeros on the left up to width 4. *)
Definition decimal (n : N) : string :=
  NilEmpty.string_of_uint (N.to_uint n).

Definition format_04d (n : N) : string :=
  let digits := decimal n in
  replicate_char (4 - String.length digits) zero +:+ digits.

(** The digits [d] behind [k] zeros. *)
Fixpoint zeros_then (k : nat) (d : Decimal.uint) : Decimal.uint :=
  match k with
  | O => d
  | S k' => Decimal.D0 (zeros_then k' d)
  end.

(** [int(s)] on a string of decimal digits. *)
Definition parse_decimal (s : string) : option N :=
  match NilEmpty.uint_of_string s with
  | Some d => Some (N.of_uint d)
  | None => None
  end.

End PyStr.

(** ** models.py *)

Record User := mkUser {
  user_id : string;
  email : string;
  role : string;
  active : bool
}.

Record Ticket := mkTicket {
  ticket_id : string;
  title : string;
  description : string;
  severity : string;
  status : string;
  requester_id : string;
  created_at : string;
  assigned_to : option string;
  tags : list string
}.

Record TokenRecord := mkTokenRecord {
  token : string;
  token_user_id : string;
  expires_at : string
}.

Record AuditEvent := mkAuditEvent {
  audit_id : string;
  action : string;
  actor_id : string;
  audit_created_at : string;
  meta : list (string * string)
}.

(** ** config.py *)

Definition MAX_OPEN_TICKETS : Z := 5.
Definition SLA_HOURS : Z := 48.
Definition RATE_LIMIT_PER_MINUTE : Z := 30.

(** ** Time, exceptions and the store-passing monad *)

(** A [datetime] that carries the UTC zone is an instant with microsecond
    resolution: the number of microseconds since the epoch.  Every reading
    of the wall clock ([datetime.now(timezone.utc)]) is an explicit
    argument of the function that takes it. *)
Definition datetime := Z.

Definition MICROS_PER_SECOND : Z := 1000000.

(** The integer nearest to [n / d], a tie going to the even one. *)
Definition nearest_even (n d : Z) : Z :=
  let q := n / d in
  let r := n mod d in
  if 2 * r <? d then q
  else if d <? 2 * r then q + 1
  else if Z.even q then q else q + 1.

(** [int(d.timestamp())].  [timestamp()] is the count of microseconds
    divided by 10^6 as a binary64 float, correctly rounded (nearest, ties
    to even), and [int] cuts the fraction off toward zero.  Below one
    second the float is below 1.0.  From one second on, with
    [2^e <= seconds < 2^(e+1)], the float is a multiple of [2^(e-52)]: the
    nearest multiple [m * 2^(e-52)]; for late instants it can be the next
    whole second when the exact value is just below it. *)
Definition timestamp_int (d : datetime) : Z :=
  let a := Z.abs d in
  if a <? MICROS_PER_SECOND then 0
  else
    let e := Z.log2 (a / MICROS_PER_SECOND) in
    Z.sgn d *
    (if e <=? 52
     then nearest_even (a * 2 ^ (52 - e)) MICROS_PER_SECOND / 2 ^ (52 - e)
     else nearest_even a (MICROS_PER_SECOND * 2 ^ (e - 52)) * 2 ^ (e - 52)).

(** [datetime.fromtimestamp(secs, timezone.utc)] for an integer [secs]. *)
Definition fromtimestamp (secs : Z) : datetime := secs * MICROS_PER_SECOND.

(** What the code takes from the Python runtime without defining it: the
    ISO-8601 text of an instant and the parser of such texts, and binary
    floating point, used only for the [hours_open] figure of a report
    line.  [datetime.fromisoformat] has three outcomes: the text carries a
    zone offset and is an instant ([fromisoformat] gives it); the text is
    ISO but has no offset, and the datetime it yields can be neither
    subtracted from nor compared with an instant ([iso_zoneless] holds, a
    [TypeError] follows); or the text is no ISO text (neither holds, the
    parser raises [ValueError]). *)
Class PyRuntime := {
  isoformat : datetime -> string;
  fromisoformat : string -> option datetime;
  iso_zoneless : string -> bool;
  (** the ISO text, again without zone, of a zone-less text moved by a
      number of microseconds *)
  zoneless_plus : string -> Z -> string;
  float : Type;
  (** [delta.total_seconds() / 3600.0] of a difference of [delta]
      microseconds *)
  hours_float : Z -> float;
  (** [round(x, ndigits)] *)
  round_float : float -> Z -> float
}.

Inductive exn :=
  | TicketError (msg : string)
  | RateLimitError (msg : string)
  | ValueError
  | TypeError.

Inductive result (A : Type) :=
  | Ok (a : A)
  | Raise (e : exn).
Arguments Ok {A} a.
Arguments Raise {A} e.

Record RateWindow := mkRateWindow {
  window_start : Z;
  count : Z
}.

(** ** store.py *)

(** [_id_counter] starts at 0 and is only ever incremented by one, so it
    is a natural number. *)
Record InMemoryStore := mkStore {
  users : gmap string User;
  tickets : gmap string Ticket;
  tokens : gmap string TokenRecord;
  audits : list AuditEvent;
  rate_limits : gmap string RateWindow;
  id_counter : N
}.

Definition new_store : InMemoryStore :=
  mkStore ∅ ∅ ∅ [] ∅ 0%N.

Definition with_tickets (f : gmap string Ticket → gmap string Ticket)
    (s : InMemoryStore) : InMemoryStore :=
  mkStore (users s) (f (tickets s)) (tokens s) (audits s) (rate_limits s)
          (id_counter s).

Definition with_audits (f : list AuditEvent → list AuditEvent)
    (s : InMemoryStore) : InMemoryStore :=
  mkStore (users s) (tickets s) (tokens s) (f (audits s)) (rate_limits s)
          (id_counter s).

Definition with_rate_limits (f : gmap string RateWindow → gmap string RateWindow)
    (s : InMemoryStore) : InMemoryStore :=
  mkStore (users s) (tickets s) (tokens s) (audits s) (f (rate_limits s))
          (id_counter s).

Definition with_id_counter (f : N → N) (s : InMemoryStore) : InMemoryStore :=
  mkStore (users s) (tickets s) (tokens s) (audits s) (rate_limits s)
          (f (id_counter s)).

(** A computation on the store: it returns a value or raises, and in both
    cases leaves a store behind. *)
Definition M (A : Type) : Type := InMemoryStore → result A * InMemoryStore.

Definition ret {A} (a : A) : M A := fun s => (Ok a, s).
Definition raise {A} (e : exn) : M A := fun s => (Raise e, s).
Definition bind {A B} (c : M A) (k : A → M B) : M B :=
  fun s =>
    match c s with
    | (Ok a, s') => k a s'
    | (Raise e, s') => (Raise e, s')
    end.
Definition get : M InMemoryStore := fun s => (Ok s, s).
Definition modify (f : InMemoryStore → InMemoryStore) : M unit :=
  fun s => (Ok tt, f s).


#[global] Instance M_ret : MRet M := @ret.
#[global] Instance M_bind : MBind M := fun A B k c => bind c k.
#[global] Instance M_fmap : FMap M :=
  fun A B f c => bind c (fun a => ret (f a)).

Definition format_id (prefix : string) (n : N) : string :=
  prefix +:+ "-" +:+ PyStr.format_04d n.

Definition next_id (prefix : string) : M string :=
  modify (with_id_counter N.succ) ;;
  s ← get ;
  ret (format_id prefix (id_counter s)).

Section WithRuntime.
Context `{PyRuntime}.

Definition now_iso (now : datetime) : string := isoformat now.

Definition add_audit (action actor_id : string) (meta : list (string * string))
    (now : datetime) : M AuditEvent :=
  id ← next_id "audit" ;
  let audit := mkAuditEvent id action actor_id (now_iso now) meta in
  modify (with_audits (fun l => l ++ [audit])) ;;
  ret audit.

(** The list comprehension walks [tickets.values()]; the order of the
    resulting list is the store's, and only its length is used below. *)
Definition get_open_tickets_for_user (s : InMemoryStore) (uid : string)
    : list Ticket :=
  List.filter
    (fun t => String.eqb (requester_id t) uid && String.eqb (status t) "open")
    (map snd (map_to_list (tickets s))).

(** ** rate_limit.py *)

(** [elapsed = (current - window_start).total_seconds()] is the difference
    in microseconds divided by 10^6, correctly rounded; the division is
    monotone and 60 is a float, so [elapsed >= 60] holds exactly when the
    difference is at least 60 * 10^6 microseconds. *)
Definition check_rate_limit (uid : string) (current : datetime) : M unit :=
  fun store =>
    match rate_limits store !! uid with
    | None =>
        (Ok tt,
         with_rate_limits
           <[uid := mkRateWindow (timestamp_int current) 1]> store)
    | Some state =>
        let elapsed_micros := current - fromtimestamp (window_start state) in
        if 60 * MICROS_PER_SECOND <=? elapsed_micros then
          (Ok tt,
           with_rate_limits
             <[uid := mkRateWindow (timestamp_int current) 1]> store)
        else
          let state' := mkRateWindow (window_start state) (count state + 1) in
          let store' := with_rate_limits <[uid := state']> store in
          if RATE_LIMIT_PER_MINUTE <? count state' then
            (Raise (RateLimitError "rate limit exceeded"), store')
          else (Ok tt, store')
    end.

(** ** policy.py *)

Definition can_open_ticket (user : User) (open_tickets : Z) : bool * string :=
  if negb (active user) then (false, "inactive user")
  else if String.eqb (role user) "guest" then
    (false, "guest role cannot open tickets")
  else if MAX_OPEN_TICKETS <=? open_tickets then
    (false, "too many open tickets")
  else (true, "allowed").

(** ** triage.py *)

(** A Python dict literal keeps the order in which its keys are written. *)
Definition KEYWORDS : list (string * list string) :=
  [ ("critical", ["outage"; "data loss"; "breach"]);
    ("high", ["failure"; "crash"; "error"]);
    ("medium", ["latency"; "slow"; "timeout"]) ].

Fixpoint classify_in (groups : list (string * list string)) (haystack : string)
    : string :=
  match groups with
  | [] => "low"
  | (sev, words) :: rest =>
      if existsb (fun word => PyStr.contains word haystack) words then sev
      else classify_in rest haystack
  end.

Definition classify_severity (title description : string) : string :=
  let haystack := PyStr.lower (title +:+ " " +:+ description) in
  classify_in KEYWORDS haystack.

(** [min(agents, key=lambda item: item[1])]: the first item whose load is
    least; [None] stands for the [ValueError] on an empty iterable. *)
Fixpoint min_from (best : string * Z) (rest : list (string * Z)) : string * Z :=
  match rest with
  | [] => best
  | item :: rest' =>
      if snd item <? snd best then min_from item rest' else min_from best rest'
  end.

Definition py_min_by_load (agents : list (string * Z)) : option (string * Z) :=
  match agents with
  | [] => None
  | item :: rest => Some (min_from item rest)
  end.

Definition set_assigned_to (a : option string) (t : Ticket) : Ticket :=
  mkTicket (ticket_id t) (title t) (description t) (severity t) (status t)
           (requester_id t) (created_at t) a (tags t).

Definition set_status (st : string) (t : Ticket) : Ticket :=
  mkTicket (ticket_id t) (title t) (description t) (severity t) st
           (requester_id t) (created_at t) (assigned_to t) (tags t).

(** [assign_ticket(ticket, agents)] writes [ticket.assigned_to] on the
    object held in the store under [key]. *)
Definition assign_ticket (key : string) (ticket : Ticket)
    (agents : list (string * Z)) : M string :=
  match py_min_by_load agents with
  | None => raise ValueError
  | Some best =>
      modify (with_tickets <[key := set_assigned_to (Some (fst best)) ticket]>) ;;
      ret (fst best)
  end.

(** ** notifications.py *)

Definition send_assignment_notice (ticket : Ticket) (agent_id : string)
    : list (string * string) :=
  [ ("kind", "assignment"); ("ticket_id", ticket_id ticket);
    ("agent_id", agent_id); ("severity", severity ticket) ].

(** ** service.py *)

(** The wall clock is read three times by [open_ticket]: by
    [check_rate_limit], by [now_iso] for [created_at], and by [add_audit]. *)
Definition open_ticket (requester title description : string)
    (tags : list string) (t_check t_created t_audit : datetime) : M Ticket :=
  check_rate_limit requester t_check ;;
  data ← get ;
  match users data !! requester with
  | None => raise (TicketError "requester not found")
  | Some user =>
      let open_tickets := get_open_tickets_for_user data requester in
      let '(allowed, reason) :=
        can_open_ticket user (Z.of_nat (length open_tickets)) in
      if negb allowed then raise (TicketError reason)
      else
        let severity := classify_severity title description in
        id ← next_id "ticket" ;
        let ticket :=
          mkTicket id title description severity "open" requester
                   (now_iso t_created) None tags in
        modify (with_tickets <[ticket_id ticket := ticket]>) ;;
        add_audit "ticket.open" requester
                  [("ticket_id", ticket_id ticket); ("severity", severity)]
                  t_audit ;;
        ret ticket
  end.

Definition assign_ticket_flow (tid : string) (agents : list (string * Z))
    (t_audit : datetime) : M (list (string * string)) :=
  data ← get ;
  match tickets data !! tid with
  | None => raise (TicketError "ticket not found")
  | Some ticket =>
      agent_id ← assign_ticket tid ticket agents ;
      add_audit "ticket.assign" agent_id [("ticket_id", ticket_id ticket)]
                t_audit ;;
      ret (send_assignment_notice
             (set_assigned_to (Some agent_id) ticket) agent_id)
  end.

Definition close_ticket (tid actor : string) (t_audit : datetime) : M Ticket :=
  data ← get ;
  match tickets data !! tid with
  | None => raise (TicketError "ticket not found")
  | Some ticket =>
      let ticket' := set_status "closed" ticket in
      modify (with_tickets <[tid := ticket']>) ;;
      add_audit "ticket.close" actor [("ticket_id", ticket_id ticket')]
                t_audit ;;
      ret ticket'
  end.

(** The three mutating operations of the service as one type of calls. *)
Inductive call :=
  | Open (requester title description : string) (tags : list string)
         (t_check t_created t_audit : datetime)
  | Assign (tid : string) (agents : list (string * Z)) (t_audit : datetime)
  | Close (tid actor : string) (t_audit : datetime).

Inductive answer :=
  | ATicket (t : Ticket)
  | ANotice (payload : list (string * string)).

Definition run_call (c : call) : M answer :=
  match c with
  | Open r t d tags t1 t2 t3 => ATicket <$> open_ticket r t d tags t1 t2 t3
  | Assign tid agents t3 => ANotice <$> assign_ticket_flow tid agents t3
  | Close tid actor t3 => ATicket <$> close_ticket tid actor t3
  end.

Definition call_action (c : call) : string :=
  match c with
  | Open _ _ _ _ _ _ _ => "ticket.open"
  | Assign _ _ _ => "ticket.assign"
  | Close _ _ _ => "ticket.close"
  end.

(** The store a sequence of calls leaves behind, raised or not. *)
Fixpoint run_calls (cs : list call) (s : InMemoryStore) : InMemoryStore :=
  match cs with
  | [] => s
  | c :: rest => run_calls rest (snd (run_call c s))
  end.

(** The same, with what each call answered. *)
Fixpoint run_each (cs : list call) (s : InMemoryStore)
    : list (result answer) * InMemoryStore :=
  match cs with
  | [] => ([], s)
  | c :: rest =>
      let '(r, s') := run_call c s in
      let '(rs, s'') := run_each rest s' in
      (r :: rs, s'')
  end.

(** [c] is an [open_ticket] of requester [uid] whose rate-limit check
    reads the clock at an instant that satisfies [P]. *)
Definition open_by (uid : string) (P : datetime → Prop) (c : call) : Prop :=
  match c with
  | Open r _ _ _ t_check _ _ => r = uid ∧ P t_check
  | _ => False
  end.

(** The instant at which the rate limiter is asked by an opening. *)
Definition check_time (c : call) : datetime :=
  match c with
  | Open _ _ _ _ t_check _ _ => t_check
  | Assign _ _ _ | Close _ _ _ => 0
  end.

(** ** reporting.py *)

Record SlaEntry := mkSlaEntry {
  entry_ticket_id : string;
  hours_open : float;
  entry_severity : string
}.

(** [hours_since(iso_stamp, now)]: [now] is optional, and without it the
    call reads the wall clock, whose reading is [wall].  The float
    [total_seconds() / 3600.0] it yields is kept here as the exact
    difference in microseconds, of which the float is [hours_float]. *)
Definition hours_since (iso_stamp : string) (now : option datetime)
    (wall : datetime) : result Z :=
  match fromisoformat iso_stamp with
  | Some base =>
      let current := default wall now in
      Ok (current - base)
  | None => if iso_zoneless iso_stamp then Raise TypeError else Raise ValueError
  end.

Definition MICROS_PER_HOUR : Z := 3600 * MICROS_PER_SECOND.

(** [age_hours >= SLA_HOURS]: both divisions (by 10^6, then by 3600.0) are
    correctly rounded, hence monotone, and map 48 hours to the float 48
    exactly, while one microsecond less stays below it; so the test is that
    of the exact ages. *)
Definition sla_reached (age_micros : Z) : bool :=
  SLA_HOURS * MICROS_PER_HOUR <=? age_micros.

(** The loop of [build_sla_report].  [hours_since] is called for the open
    tickets only, once each; [clock k] is what the wall clock shows to the
    call number [k], should that call read it. *)
Fixpoint sla_loop (tickets : list Ticket) (now : option datetime)
    (clock : nat → datetime) (tick : nat) (report : list SlaEntry)
    : result (list SlaEntry) :=
  match tickets with
  | [] => Ok report
  | ticket :: rest =>
      if negb (String.eqb (status ticket) "open") then
        sla_loop rest now clock tick report
      else
        match hours_since (created_at ticket) now (clock tick) with
        | Raise e => Raise e
        | Ok age =>
            if sla_reached age then
              sla_loop rest now clock (S tick)
                (report ++ [mkSlaEntry (ticket_id ticket)
                              (round_float (hours_float age) 2)
                              (severity ticket)])
            else sla_loop rest now clock (S tick) report
        end
  end.

(** [build_sla_report(tickets, now)] with its optional [now]. *)
Definition build_sla_report_at (tickets : list Ticket) (now : option datetime)
    (clock : nat → datetime) : result (list SlaEntry) :=
  sla_loop tickets now clock 0 [].

(** [build_sla_report(tickets, now)] for a given [now]: the wall clock is
    not read. *)
Definition build_sla_report (tickets : list Ticket) (now : datetime)
    : result (list SlaEntry) :=
  build_sla_report_at tickets (Some now) (λ _, now).

End WithRuntime.

(** ** Auxiliary notions used to state the properties *)

(** The numeric component of an identifier [prefix-NNNN]. *)
Definition id_number (id : string) : option N :=
  PyStr.parse_decimal (PyStr.after_last_dash id).

(** Running a list of calls of the same function, in order, stopping at
    the first that raises. *)
Fixpoint for_each {A B} (f : A → M B) (l : list A) : M (list B) :=
  match l with
  | [] => ret []
  | a :: rest => b ← f a ; bs ← for_each f rest ; ret (b :: bs)
  end.

(** Successive rate-limit checks of one user, each outcome recorded: the
    caller sees the exception and goes on. *)
Fixpoint check_many (uid : string) (times : list datetime) (s : InMemoryStore)
    : list (result unit) * InMemoryStore :=
  match times with
  | [] => ([], s)
  | t :: rest =>
      let '(r, s') := check_rate_limit uid t s in
      let '(rs, s'') := check_many uid rest s' in
      (r :: rs, s'')
  end.

(** What the rate limiter said to a call, read off the call's answer. *)
Definition limiter_view {A} (r : result A) : result unit :=
  match r with
  | Raise (RateLimitError msg) => Raise (RateLimitError msg)
  | _ => Ok tt
  end.

(** What successive checks inside one window answer, from a window whose
    count is [c]: each raises exactly when its own count passes the limit. *)
Fixpoint outcomes_from (c : Z) (n : nat) : list (result unit) :=
  match n with
  | O => []
  | S k =>
      (if RATE_LIMIT_PER_MINUTE <? c + 1
       then Raise (RateLimitError "rate limit exceeded") else Ok tt)
      :: outcomes_from (c + 1) k
  end.

(** Every ticket key was issued by [next_id "ticket"] of this store. *)
Definition store_ok (s : InMemoryStore) : Prop :=
  ∀ k t, tickets s !! k = Some t →
    ∃ n, k = format_id "ticket" n ∧ (n <= id_counter s)%N.

(** A store as the service finds it at start: users seeded from outside,
    nothing else. *)
Definition seeded (us : gmap string User) : InMemoryStore :=
  mkStore us ∅ ∅ [] ∅ 0%N.

(** The reading of the severity rule that scans the plain concatenation
    of title and description. *)
Definition classify_severity_concat (title description : string) : string :=
  classify_in KEYWORDS (PyStr.lower (title +:+ description)).

(** [w] occurs in [s]. *)
Definition occurs_in (w s : string) : Prop :=
  ∃ a b, s = a +:+ w +:+ b.

(** One of [words] occurs in [s]. *)
Definition hits (words : list string) (s : string) : Prop :=
  ∃ w, w ∈ words ∧ occurs_in w s.

Section ReportNotions.
Context `{PyRuntime}.






End ReportNotions.

Section ServiceNotions.
Context `{PyRuntime}.

(** The ticket and the audit event a successful [open_ticket] creates,
    and the store it leaves. *)
Definition opened_ticket (r ti d : string) (tg : list string)
    (t_created : datetime) (s : InMemoryStore) : Ticket :=
  mkTicket (format_id "ticket" (N.succ (id_counter s))) ti d
           (classify_severity ti d) "open" r (now_iso t_created) None tg.

Definition opened_audit (r ti d : string) (t_audit : datetime)
    (s : InMemoryStore) : AuditEvent :=
  mkAuditEvent (format_id "audit" (N.succ (N.succ (id_counter s))))
               "ticket.open" r (now_iso t_audit)
               [("ticket_id", format_id "ticket" (N.succ (id_counter s)));
                ("severity", classify_severity ti d)].

Definition opened_store (r ti d : string) (tg : list string)
    (t_check t_created t_audit : datetime) (s : InMemoryStore)
    : InMemoryStore :=
  mkStore (users s)
          (<[format_id "ticket" (N.succ (id_counter s))
             := opened_ticket r ti d tg t_created s]> (tickets s))
          (tokens s)
          (audits s ++ [opened_audit r ti d t_audit s])
          (rate_limits (snd (check_rate_limit r t_check s)))
          (N.succ (N.succ (id_counter s))).

End ServiceNotions.

(** ** A runtime to evaluate examples with

    Instants are printed as their count of microseconds and floats are
    exact fractions [(numerator, denominator)]; [round] is to the nearest
    multiple of [10^-ndigits], ties to even, of the exact fraction (Python
    rounds the binary float, which can differ where the exact value is a
    tie).  A text that begins with "local " counts as ISO text without a
    zone.  The theorems below hold for every runtime; this one only serves
    to run the code on concrete inputs. *)
Module Examples.

Definition round_half_even (n d : Z) : Z :=
  let q := n / d in
  let r := n mod d in
  if 2 * r <? d then q
  else if d <? 2 * r then q + 1
  else if Z.even q then q else q + 1.

Definition runtime : PyRuntime := {|
  isoformat t := NilEmpty.string_of_int (Z.to_int t);
  fromisoformat s := Z.of_int <$> NilEmpty.int_of_string s;
  iso_zoneless s := String.prefix "local " s;
  zoneless_plus s _ := s;
  float := Z * Z;
  hours_float us := (us, MICROS_PER_HOUR);
  round_float x nd :=
    (round_half_even (fst x * 10 ^ nd) (snd x), 10 ^ nd)
|}.
#[local] Existing Instance runtime.

Definition alice : User := mkUser "u1" "alice@example.org" "agent" true.
Definition store0 : InMemoryStore := seeded {[ "u1" := alice ]}.

(** [store0] after alice opened a ticket and closed it. *)
Definition store_closed : InMemoryStore :=
  run_calls [Open "u1" "slow response" "" [] 0 0 0; Close "ticket-0001" "u1" 0]
            store0.

End Examples.

(** ** The remaining functions of the service's modules *)

(** *** config.py *)

Definition TOKEN_TTL_MINUTES : Z := 60.

Definition SEVERITY_WEIGHTS : list (string * Z) :=
  [ ("low", 1); ("medium", 2); ("high", 3); ("critical", 5) ].

Definition ALLOWED_ROLES : list string := ["agent"; "admin"; "viewer"; "guest"].

(** [d.get(key)] and [d.get(key, default)] on a dict written as the list of
    its items. *)
Fixpoint dict_find {V : Type} (d : list (string * V)) (key : string) : option V :=
  match d with
  | [] => None
  | (k, v) :: rest => if String.eqb k key then Some v else dict_find rest key
  end.

Definition dict_get {V : Type} (d : list (string * V)) (key : string)
    (default : V) : V :=
  match dict_find d key with
  | Some v => v
  | None => default
  end.

(** The weight [compute_priority] takes for a severity:
    [SEVERITY_WEIGHTS.get(severity, 1)]. *)
Definition priority_weight (sev : string) : Z := dict_get SEVERITY_WEIGHTS sev 1.

(** *** auth.py and the rest of utils.py *)

Inductive auth_exn :=
  | AuthError (msg : string)
  | AuthorizationError (msg : string)
  | IsoFormatError
  | ZonelessStampError.

Inductive outcome (A : Type) :=
  | Done (a : A)
  | Failed (e : auth_exn).
Arguments Done {A} a.
Arguments Failed {A} e.

(** [s.replace(old, "")] for a one-character [old]. *)
Fixpoint remove_char (old : ascii) (s : string) : string :=
  match s with
  | EmptyString => EmptyString
  | String c rest =>
      if Ascii.eqb c old then remove_char old rest
      else String c (remove_char old rest)
  end.

Definition with_tokens (f : gmap string TokenRecord → gmap string TokenRecord)
    (s : InMemoryStore) : InMemoryStore :=
  mkStore (users s) (tickets s) (f (tokens s)) (audits s) (rate_limits s)
          (id_counter s).

Definition MICROS_PER_MINUTE : Z := 60 * MICROS_PER_SECOND.

Section AuthAndNotices.
Context `{PyRuntime}.

(** [None] is the [ValueError] of [fromisoformat]; a text without zone is
    moved and written back without zone. *)
Definition add_minutes (iso_stamp : string) (minutes : Z) : option string :=
  match fromisoformat iso_stamp with
  | Some base => Some (isoformat (base + minutes * MICROS_PER_MINUTE))
  | None =>
      if iso_zoneless iso_stamp
      then Some (zoneless_plus iso_stamp (minutes * MICROS_PER_MINUTE))
      else None
  end.

(** The functions of auth.py work on the store of [get_store()]; it is
    passed in and handed back here like everywhere else. *)
Definition create_token (uid : string) (now : datetime) (s : InMemoryStore)
    : outcome TokenRecord * InMemoryStore :=
  let stamp := now_iso now in
  let tok := "tok_" +:+ uid +:+ "_" +:+ remove_char ":"%char stamp in
  match add_minutes stamp TOKEN_TTL_MINUTES with
  | None => (Failed IsoFormatError, s)
  | Some expires =>
      let record := mkTokenRecord tok uid expires in
      (Done record, with_tokens <[tok := record]> s)
  end.

Definition authenticate (tok : string) (current : datetime) (s : InMemoryStore)
    : outcome User :=
  match tokens s !! tok with
  | None => Failed (AuthError "token not found")
  | Some record =>
      match fromisoformat (expires_at record) with
      | None =>
          if iso_zoneless (expires_at record) then Failed ZonelessStampError
          else Failed IsoFormatError
      | Some expiry =>
          if expiry <? current then Failed (AuthError "token expired")
          else
            match users s !! token_user_id record with
            | None => Failed (AuthError "inactive user")
            | Some user =>
                if negb (active user) then Failed (AuthError "inactive user")
                else Done user
            end
      end
  end.

Definition require_role (user : User) (allowed : list string) : outcome unit :=
  if negb (bool_decide (role user ∈ ALLOWED_ROLES)) then
    Failed (AuthorizationError "unknown role")
  else if negb (bool_decide (role user ∈ allowed)) then
    Failed (AuthorizationError "role not permitted")
  else Done tt.

(** *** notifications.py and the rest of reporting.py *)

Record SlaWarning := mkSlaWarning {
  warning_kind : string;
  warning_ticket_id : string;
  warning_hours_open : float;
  warning_severity : string
}.

Definition send_sla_warning (ticket : Ticket) (hours : float) : SlaWarning :=
  mkSlaWarning "sla_warning" (ticket_id ticket) (round_float hours 2)
               (severity ticket).

(** The loop of [build_sla_notifications], with the optional [now] and
    the wall clock as in [sla_loop]. *)
Fixpoint notices_loop (tickets : list Ticket) (now : option datetime)
    (clock : nat → datetime) (tick : nat) (notices : list SlaWarning)
    : result (list SlaWarning) :=
  match tickets with
  | [] => Ok notices
  | ticket :: rest =>
      if negb (String.eqb (status ticket) "open") then
        notices_loop rest now clock tick notices
      else
        match hours_since (created_at ticket) now (clock tick) with
        | Raise e => Raise e
        | Ok age =>
            if sla_reached age then
              notices_loop rest now clock (S tick)
                (notices ++ [send_sla_warning ticket (hours_float age)])
            else notices_loop rest now clock (S tick) notices
        end
  end.

Definition build_sla_notifications_at (tickets : list Ticket)
    (now : option datetime) (clock : nat → datetime)
    : result (list SlaWarning) :=
  notices_loop tickets now clock 0 [].

(** [build_sla_notifications(tickets, now)] for a given [now]. *)
Definition build_sla_notifications (tickets : list Ticket) (now : datetime)
    : result (list SlaWarning) :=
  build_sla_notifications_at tickets (Some now) (λ _, now).

(** The notice that goes with a report line. *)
Definition warning_of_entry (e : SlaEntry) : SlaWarning :=
  mkSlaWarning "sla_warning" (entry_ticket_id e) (hours_open e)
               (entry_severity e).

End AuthAndNotices.

(** *** Notions for the invariants of the store *)

(** The number of open tickets [open_ticket] counts for a user. *)
Definition open_count (s : InMemoryStore) (uid : string) : nat :=
  length (get_open_tickets_for_user s uid).

(** Every ticket sits under its own id. *)
Definition keys_ok (s : InMemoryStore) : Prop :=
  ∀ k t, tickets s !! k = Some t → ticket_id t = k.

(** Every audit event names, under "ticket_id", a ticket of the store. *)
Definition audit_refs_ok (s : InMemoryStore) : Prop :=
  ∀ ev, ev ∈ audits s →
    ∃ tid, dict_find (meta ev) "ticket_id" = Some tid ∧
           is_Some (tickets s !! tid).

(** The audit ids were issued by [next_id "audit"] of this store, in this
    order. *)
Definition audit_ids_ok (s : InMemoryStore) : Prop :=
  (∀ i a, audits s !! i = Some a →
     ∃ n, audit_id a = format_id "audit" n ∧ (n <= id_counter s)%N) ∧
  (∀ i j a b, (i < j)%nat → audits s !! i = Some a → audits s !! j = Some b →
     ∃ na nb, audit_id a = format_id "audit" na ∧
              audit_id b = format_id "audit" nb ∧ (na < nb)%N).

(** A first position of [agents] at which the load is least. *)
Definition first_least (agents : list (string * Z)) (best : string * Z) : Prop :=
  ∃ i, agents !! i = Some best ∧
       (∀ a, a ∈ agents → snd best <= snd a) ∧
       (∀ j a, (j < i)%nat → agents !! j = Some a → snd best < snd a).

(** [get_open_tickets_for_user] counted on the tickets alone. *)
Definition counts_for (uid : string) (t : Ticket) : bool :=
  String.eqb (requester_id t) uid && String.eqb (status t) "open".

Definition count_in (m : gmap string Ticket) (uid : string) : nat :=
  length (List.filter (counts_for uid) (map snd (map_to_list m))).

Section CallSequences.
Context `{PyRuntime}.

(** How many calls of a sequence return rather than raise. *)
Fixpoint successes (cs : list call) (s : InMemoryStore) : nat :=
  match cs with
  | [] => 0
  | c :: rest =>
      (match fst (run_call c s) with Ok _ => 1 | Raise _ => 0 end
       + successes rest (snd (run_call c s)))%nat
  end.

End CallSequences.

(** ** large-monorepo: services/ingest/pipeline.py *)

(** The answer of a function that returns [None] or raises
    [ValueError(msg)]. *)
Inductive checked :=
  | Valid
  | Invalid (msg : string).

(** [range(0, stop, step)] for a [stop] that is a length: [None] is the
    [ValueError] of a zero step; a negative step gives no index at all. *)
Definition py_range0 (stop step : Z) : option (list Z) :=
  if step =? 0 then None
  else if step <? 0 then Some []
  else Some (map (λ k, Z.of_nat k * step)
                 (seq 0 (Z.to_nat ((stop + step - 1) / step)))).

(** [l[i:j]] for [0 <= i <= j]. *)
Definition py_slice {A : Type} (l : list A) (i j : Z) : list A :=
  take (Z.to_nat (j - i)) (drop (Z.to_nat i) l).

Section IngestPipeline.

(** The [config] module of this service is not among the sources; its
    three constants are parameters. *)
Variables (BATCH_SIZE MAX_ROWS : Z) (REQUIRED_FIELDS : list string).

(** A dict is true when it is not empty. *)
Definition split_rows (rows : list (gmap string string))
    : list (gmap string string) :=
  List.filter (λ row, negb (bool_decide (row = ∅))) rows.

Fixpoint first_missing (fields : list string) (row : gmap string string)
    : option string :=
  match fields with
  | [] => None
  | field :: rest =>
      match row !! field with
      | None => Some field
      | Some _ => first_missing rest row
      end
  end.

Fixpoint validate_each (rows : list (gmap string string)) : checked :=
  match rows with
  | [] => Valid
  | row :: rest =>
      match first_missing REQUIRED_FIELDS row with
      | Some field => Invalid ("missing " +:+ field)
      | None => validate_each rest
      end
  end.

Definition validate_rows (rows : list (gmap string string)) : checked :=
  if MAX_ROWS <? Z.of_nat (length rows) then Invalid "too many rows"
  else validate_each rows.

Fixpoint batches_loop {A : Type} (rows : list A) (indices : list Z)
    (batches : list (list A)) : list (list A) :=
  match indices with
  | [] => batches
  | i :: rest =>
      batches_loop rows rest (batches ++ [py_slice rows i (i + BATCH_SIZE)])
  end.

Definition build_batches {A : Type} (rows : list A) : option (list (list A)) :=
  indices ← py_range0 (Z.of_nat (length rows)) BATCH_SIZE ;
  Some (batches_loop rows indices []).

End IngestPipeline.


(** * Properties *)

(** ** Identifiers: the number can be read back from the text *)

Section Identifiers.

Import PyStr.

Lemma append_nil (s : string) : "" +:+ s = s.
Proof. reflexivity. Qed.

Lemma append_cons c (p s : string) : String c p +:+ s = String c (p +:+ s).
Proof. reflexivity. Qed.

Lemma has_dash_digits d : has_dash (NilEmpty.string_of_uint d) = false.
Proof. induction d; simpl; auto. Qed.

Lemma zeros_then_string k d :
  replicate_char k zero +:+ NilEmpty.string_of_uint d
  = NilEmpty.string_of_uint (zeros_then k d).
Proof. induction k as [| k IH]; [done |]. simpl. by rewrite <- IH. Qed.

Lemma zeros_then_value k d : N.of_uint (zeros_then k d) = N.of_uint d.
Proof. induction k; simpl; [done | exact IHk]. Qed.

Lemma format_04d_digits n :
  ∃ d, format_04d n = NilEmpty.string_of_uint d ∧ N.of_uint d = n.
Proof.
  unfold format_04d, decimal.
  eexists. split; [apply zeros_then_string |].
  rewrite zeros_then_value. apply DecimalN.Unsigned.of_to.
Qed.

Lemma after_last_dash_app p t :
  has_dash t = false → after_last_dash (p +:+ "-" +:+ t) = t.
Proof.
  intros Ht. induction p as [| c p IH].
  - rewrite append_nil, append_cons, append_nil. simpl. by rewrite Ht.
  - rewrite append_cons. simpl.
    assert (has_dash (p +:+ "-" +:+ t) = true) as ->; [| exact IH].
    clear IH. induction p as [| c' p IH].
    + done.
    + rewrite append_cons. simpl.
      destruct (Ascii.eqb c' dash); [done | exact IH].
Qed.

Lemma id_number_format_id p n : id_number (format_id p n) = Some n.
Proof.
  destruct (format_04d_digits n) as (d & Hd & Hn).
  unfold id_number, format_id. rewrite Hd.
  rewrite after_last_dash_app by apply has_dash_digits.
  unfold parse_decimal. by rewrite NilEmpty.usu, Hn.
Qed.

Lemma format_id_inj p q n m : format_id p n = format_id q m → n = m.
Proof.
  intros E. apply (f_equal id_number) in E.
  rewrite !id_number_format_id in E. congruence.
Qed.

End Identifiers.

(** ** The store and the service, run symbolically *)

Ltac run_M :=
  unfold mbind, mret, fmap, M_bind, M_ret, M_fmap, bind, ret, raise, get,
    modify in *.

Section Service.
Context `{PyRuntime}.

Lemma next_id_run prefix s :
  next_id prefix s
  = (Ok (format_id prefix (N.succ (id_counter s))), with_id_counter N.succ s).
Proof. reflexivity. Qed.

Lemma add_audit_run act actor m now s :
  add_audit act actor m now s
  = let ev := mkAuditEvent (format_id "audit" (N.succ (id_counter s)))
                           act actor (now_iso now) m in
    (Ok ev, with_audits (fun l => l ++ [ev]) (with_id_counter N.succ s)).
Proof. reflexivity. Qed.

(** The rate limiter touches nothing but [rate_limits]. *)
Lemma check_rate_limit_frame uid now s :
  let s' := snd (check_rate_limit uid now s) in
  users s' = users s ∧ tickets s' = tickets s ∧ tokens s' = tokens s ∧
  audits s' = audits s ∧ id_counter s' = id_counter s.
Proof.
  unfold check_rate_limit.
  destruct (rate_limits s !! uid) as [w |]; simpl; [| done].
  destruct (60 * MICROS_PER_SECOND <=? _); simpl; [done |].
  destruct (RATE_LIMIT_PER_MINUTE <? _); done.
Qed.

Lemma open_tickets_after_check uid now s :
  get_open_tickets_for_user (snd (check_rate_limit uid now s)) uid
  = get_open_tickets_for_user s uid.
Proof.
  unfold get_open_tickets_for_user.
  by destruct (check_rate_limit_frame uid now s) as (_ & -> & _).
Qed.

Lemma open_ticket_run r ti d tg t1 t2 t3 s :
  open_ticket r ti d tg t1 t2 t3 s
  = let s1 := snd (check_rate_limit r t1 s) in
    match fst (check_rate_limit r t1 s) with
    | Raise e => (Raise e, s1)
    | Ok _ =>
        match users s !! r with
        | None => (Raise (TicketError "requester not found"), s1)
        | Some u =>
            let verdict :=
              can_open_ticket u
                (Z.of_nat (length (get_open_tickets_for_user s r))) in
            if fst verdict then
              (Ok (opened_ticket r ti d tg t2 s),
               opened_store r ti d tg t1 t2 t3 s)
            else (Raise (TicketError (snd verdict)), s1)
        end
    end.
Proof.
  unfold open_ticket, opened_store. run_M.
  pose proof (check_rate_limit_frame r t1 s) as (Hu & Ht & Hk & Ha & Hc).
  pose proof (open_tickets_after_check r t1 s) as Ho.
  destruct (check_rate_limit r t1 s) as [[[] | e] s1]; simpl in *; [| done].
  rewrite Hu. destruct (users s !! r) as [u |]; [| done].
  rewrite Ho.
  destruct (can_open_ticket u _) as [[|] reason]; simpl; [| done].
  unfold next_id, add_audit, next_id, opened_ticket, opened_audit, with_audits,
    with_tickets, with_id_counter. run_M. simpl.
  by rewrite Hu, Ht, Hk, Ha, Hc.
Qed.

Lemma assign_ticket_flow_run tid agents t3 s :
  assign_ticket_flow tid agents t3 s
  = match tickets s !! tid with
    | None => (Raise (TicketError "ticket not found"), s)
    | Some ticket =>
        match py_min_by_load agents with
        | None => (Raise ValueError, s)
        | Some best =>
            let ticket' := set_assigned_to (Some (fst best)) ticket in
            let ev := mkAuditEvent
                        (format_id "audit" (N.succ (id_counter s)))
                        "ticket.assign" (fst best) (now_iso t3)
                        [("ticket_id", ticket_id ticket)] in
            (Ok (send_assignment_notice ticket' (fst best)),
             mkStore (users s) (<[tid := ticket']> (tickets s)) (tokens s)
                     (audits s ++ [ev]) (rate_limits s)
                     (N.succ (id_counter s)))
        end
    end.
Proof.
  unfold assign_ticket_flow, assign_ticket. run_M.
  destruct (tickets s !! tid) as [ticket |]; [| done].
  destruct (py_min_by_load agents) as [best |]; done.
Qed.

Lemma close_ticket_run tid actor t3 s :
  close_ticket tid actor t3 s
  = match tickets s !! tid with
    | None => (Raise (TicketError "ticket not found"), s)
    | Some ticket =>
        let ticket' := set_status "closed" ticket in
        let ev := mkAuditEvent
                    (format_id "audit" (N.succ (id_counter s)))
                    "ticket.close" actor (now_iso t3)
                    [("ticket_id", ticket_id ticket)] in
        (Ok ticket',
         mkStore (users s) (<[tid := ticket']> (tickets s)) (tokens s)
                 (audits s ++ [ev]) (rate_limits s) (N.succ (id_counter s)))
    end.
Proof.
  unfold close_ticket. run_M.
  destruct (tickets s !! tid) as [ticket |]; done.
Qed.

End Service.

(** ** The rate limiter *)

Section RateLimiter.

Lemma check_fresh uid now s :
  rate_limits s !! uid = None →
  check_rate_limit uid now s
  = (Ok tt, with_rate_limits <[uid := mkRateWindow (timestamp_int now) 1]> s).
Proof. intros E. unfold check_rate_limit. by rewrite E. Qed.

Lemma check_rollover uid now s w :
  rate_limits s !! uid = Some w →
  60 * MICROS_PER_SECOND <= now - fromtimestamp (window_start w) →
  check_rate_limit uid now s
  = (Ok tt, with_rate_limits <[uid := mkRateWindow (timestamp_int now) 1]> s).
Proof.
  intros E Hle. unfold check_rate_limit. rewrite E. simpl.
  by apply Z.leb_le in Hle as ->.
Qed.

Lemma check_within uid now s w :
  rate_limits s !! uid = Some w →
  now - fromtimestamp (window_start w) < 60 * MICROS_PER_SECOND →
  check_rate_limit uid now s
  = (if RATE_LIMIT_PER_MINUTE <? count w + 1
     then Raise (RateLimitError "rate limit exceeded") else Ok tt,
     with_rate_limits
       <[uid := mkRateWindow (window_start w) (count w + 1)]> s).
Proof.
  intros E Hlt. unfold check_rate_limit. rewrite E. simpl.
  apply Z.leb_gt in Hlt as ->.
  by destruct (RATE_LIMIT_PER_MINUTE <? count w + 1).
Qed.

Lemma check_raises_only_rate_limit uid now s e :
  fst (check_rate_limit uid now s) = Raise e →
  e = RateLimitError "rate limit exceeded".
Proof.
  unfold check_rate_limit.
  destruct (rate_limits s !! uid) as [w |]; simpl; [| done].
  destruct (60 * MICROS_PER_SECOND <=? _); simpl; [done |].
  destruct (RATE_LIMIT_PER_MINUTE <? _); simpl; congruence.
Qed.

(** Calls that all fall inside the current window count up from the
    window's count, and raise from the first count above the limit on. *)
Lemma check_many_within uid times : ∀ s w,
  rate_limits s !! uid = Some w →
  Forall (λ t, t - fromtimestamp (window_start w) < 60 * MICROS_PER_SECOND)
         times →
  fst (check_many uid times s) = outcomes_from (count w) (length times) ∧
  rate_limits (snd (check_many uid times s)) !! uid
  = Some (mkRateWindow (window_start w) (count w + Z.of_nat (length times))).
Proof.
  induction times as [| t rest IH]; intros s w E Hall.
  - simpl. rewrite E. split; [done |]. destruct w; simpl. do 2 f_equal. lia.
  - inversion Hall as [| ? ? Ht Hrest]; subst.
    simpl check_many. rewrite (check_within _ _ _ _ E Ht).
    set (s1 := with_rate_limits _ s).
    assert (rate_limits s1 !! uid
            = Some (mkRateWindow (window_start w) (count w + 1))) as E1
      by apply lookup_insert_eq.
    destruct (IH s1 _ E1 Hrest) as [Hr Hs]. simpl in Hr, Hs.
    destruct (check_many uid rest s1) as [rs s2]. simpl in *.
    split; [by rewrite Hr |].
    rewrite Hs. do 2 f_equal. lia.
Qed.

End RateLimiter.

(** ** The policy gate *)

(** C4. [can_open_ticket] checks in order, the first failing check
    deciding: an inactive user is refused as "inactive user"; else a guest
    as "guest role cannot open tickets"; else a count that is not below the
    maximum of 5 as "too many open tickets"; otherwise the answer is
    (true, "allowed").  The function takes and returns no store. *)
Theorem can_open_ticket_order (user : User) (n : Z) :
  MAX_OPEN_TICKETS = 5 ∧
  (active user = false → can_open_ticket user n = (false, "inactive user")) ∧
  (active user = true → role user = "guest" →
     can_open_ticket user n = (false, "guest role cannot open tickets")) ∧
  (active user = true → role user ≠ "guest" → ¬ n < MAX_OPEN_TICKETS →
     can_open_ticket user n = (false, "too many open tickets")) ∧
  (active user = true → role user ≠ "guest" → n < MAX_OPEN_TICKETS →
     can_open_ticket user n = (true, "allowed")).
Proof.
  unfold can_open_ticket. split; [reflexivity |].
  split; [by intros -> |].
  split; [by intros -> -> |].
  split; intros -> Hr Hn; simpl;
    apply String.eqb_neq in Hr as ->.
  - assert ((MAX_OPEN_TICKETS <=? n) = true) as -> by (apply Z.leb_le; lia). done.
  - assert ((MAX_OPEN_TICKETS <=? n) = false) as -> by (apply Z.leb_gt; lia). done.
Qed.

Lemma can_open_ticket_order_witness :
  can_open_ticket (mkUser "u1" "a@example.org" "agent" true) 5
  = (false, "too many open tickets") ∧
  can_open_ticket (mkUser "u1" "a@example.org" "agent" true) 4
  = (true, "allowed") ∧
  can_open_ticket (mkUser "u2" "g@example.org" "guest" true) 0
  = (false, "guest role cannot open tickets") ∧
  can_open_ticket (mkUser "u3" "i@example.org" "guest" false) 9
  = (false, "inactive user").
Proof.
  split; [| split; [| split]].
  - apply (can_open_ticket_order (mkUser "u1" "a@example.org" "agent" true) 5);
      [reflexivity | discriminate | vm_compute; discriminate].
  - apply (can_open_ticket_order (mkUser "u1" "a@example.org" "agent" true) 4);
      [reflexivity | discriminate | reflexivity].
  - apply (can_open_ticket_order (mkUser "u2" "g@example.org" "guest" true) 0);
      reflexivity.
  - apply (can_open_ticket_order (mkUser "u3" "i@example.org" "guest" false) 9);
      reflexivity.
Defined.

(** ** The ticket service and its audit trail *)

Section ServiceProperties.
Context `{PyRuntime}.

Lemma run_call_run c s :
  run_call c s
  = match c with
    | Open r t d tags t1 t2 t3 =>
        match open_ticket r t d tags t1 t2 t3 s with
        | (Ok v, s') => (Ok (ATicket v), s')
        | (Raise e, s') => (Raise e, s')
        end
    | Assign tid agents t3 =>
        match assign_ticket_flow tid agents t3 s with
        | (Ok v, s') => (Ok (ANotice v), s')
        | (Raise e, s') => (Raise e, s')
        end
    | Close tid actor t3 =>
        match close_ticket tid actor t3 s with
        | (Ok v, s') => (Ok (ATicket v), s')
        | (Raise e, s') => (Raise e, s')
        end
    end.
Proof. destruct c; reflexivity. Qed.

(** C1. A successful [open_ticket], [assign_ticket_flow] or [close_ticket]
    leaves the audit log one event longer, and the new, last event carries
    the action of the operation: "ticket.open", "ticket.assign" or
    "ticket.close". *)
Theorem audit_grows_by_one (c : call) (s s' : InMemoryStore) (v : answer) :
  run_call c s = (Ok v, s') →
  length (audits s') = S (length (audits s)) ∧
  ∃ ev, audits s' = audits s ++ [ev] ∧ action ev = call_action c.
Proof.
  rewrite run_call_run. destruct c as [r t d tg t1 t2 t3 | tid agents t3 | tid actor t3].
  - rewrite open_ticket_run. cbv zeta.
    destruct (fst (check_rate_limit r t1 s)); [| intros [=]].
    destruct (users s !! r) as [u |]; [| intros [=]].
    destruct (fst (can_open_ticket u _)); intros [= <- <-]; simpl.
    rewrite length_app. simpl. split; [lia | eauto].
  - rewrite assign_ticket_flow_run.
    destruct (tickets s !! tid) as [ticket |]; [| intros [=]].
    destruct (py_min_by_load agents) as [best |]; intros [= <- <-]; simpl.
    rewrite length_app. simpl. split; [lia | eauto].
  - rewrite close_ticket_run.
    destruct (tickets s !! tid) as [ticket |]; intros [= <- <-]; simpl.
    rewrite length_app. simpl. split; [lia | eauto].
Qed.

(** C6. [open_ticket] raises only for an exceeded rate limit, an unknown
    requester or a refusal by the policy; and when it raises, the tickets
    and the audit log (and the users and the id counter) are as before. *)
Theorem open_ticket_failure (r ti d : string) (tg : list string)
    (t1 t2 t3 : datetime) (s s' : InMemoryStore) (e : exn) :
  open_ticket r ti d tg t1 t2 t3 s = (Raise e, s') →
  (tickets s' = tickets s ∧ audits s' = audits s ∧
   users s' = users s ∧ id_counter s' = id_counter s) ∧
  ( (e = RateLimitError "rate limit exceeded" ∧
     fst (check_rate_limit r t1 s) = Raise e)
  ∨ (e = TicketError "requester not found" ∧ users s !! r = None)
  ∨ (∃ u reason, users s !! r = Some u ∧
       can_open_ticket u (Z.of_nat (length (get_open_tickets_for_user s r)))
       = (false, reason) ∧
       e = TicketError reason) ).
Proof.
  rewrite open_ticket_run. cbv zeta.
  pose proof (check_rate_limit_frame r t1 s) as (Hu & Ht & _ & Ha & Hc).
  pose proof (check_raises_only_rate_limit r t1 s) as Hrl.
  destruct (fst (check_rate_limit r t1 s)) as [[] | e0].
  - destruct (users s !! r) as [u |] eqn:Eu.
    + destruct (can_open_ticket u _) as [[|] reason] eqn:Ev; simpl;
        intros [= <- <-]; [].
      split; [done |]. right. right. by exists u, reason.
    + intros [= <- <-]. split; [done |]. right. by left.
  - intros [= <- <-]. split; [done |]. left. split; [by apply Hrl | done].
Qed.

(** C9. [open_ticket] asks the rate limiter first: whatever the limiter
    raises is what [open_ticket] raises, and after every call, failed or
    not, the requester's window is the one the limiter left: created or
    restarted with count 1, or the old one with its count one higher.  A
    call that fails for an unknown requester or on the policy has thus used
    up quota. *)
Theorem open_ticket_consumes_quota (r ti d : string) (tg : list string)
    (t1 t2 t3 : datetime) (s : InMemoryStore) :
  let out := open_ticket r ti d tg t1 t2 t3 s in
  rate_limits (snd out) = rate_limits (snd (check_rate_limit r t1 s)) ∧
  (∀ e, fst (check_rate_limit r t1 s) = Raise e → fst out = Raise e) ∧
  (fst (check_rate_limit r t1 s) = Ok tt → users s !! r = None →
     fst out = Raise (TicketError "requester not found")) ∧
  (∀ u reason, fst (check_rate_limit r t1 s) = Ok tt → users s !! r = Some u →
     can_open_ticket u (Z.of_nat (length (get_open_tickets_for_user s r)))
     = (false, reason) →
     fst out = Raise (TicketError reason)) ∧
  ∃ w', rate_limits (snd out) !! r = Some w' ∧
    (rate_limits s !! r = None → w' = mkRateWindow (timestamp_int t1) 1) ∧
    (∀ w, rate_limits s !! r = Some w →
       60 * MICROS_PER_SECOND <= t1 - fromtimestamp (window_start w) →
       w' = mkRateWindow (timestamp_int t1) 1) ∧
    (∀ w, rate_limits s !! r = Some w →
       t1 - fromtimestamp (window_start w) < 60 * MICROS_PER_SECOND →
       w' = mkRateWindow (window_start w) (count w + 1)).
Proof.
  intros out.
  assert (rate_limits (snd out) = rate_limits (snd (check_rate_limit r t1 s)))
    as Hrl.
  { unfold out. rewrite open_ticket_run. cbv zeta.
    destruct (fst (check_rate_limit r t1 s)); [| done].
    destruct (users s !! r) as [u |]; [| done].
    by destruct (fst (can_open_ticket u _)). }
  split; [exact Hrl |].
  split; [| split; [| split]].
  - intros e He. unfold out. rewrite open_ticket_run. cbv zeta. by rewrite He.
  - intros Hok Hu. unfold out. rewrite open_ticket_run. cbv zeta.
    by rewrite Hok, Hu.
  - intros u reason Hok Hu Hv. unfold out. rewrite open_ticket_run. cbv zeta.
    by rewrite Hok, Hu, Hv.
  - rewrite Hrl. destruct (rate_limits s !! r) as [w |] eqn:E.
    + destruct (Z_le_gt_dec (60 * MICROS_PER_SECOND)
                  (t1 - fromtimestamp (window_start w))) as [Hle | Hgt].
      * rewrite (check_rollover _ _ _ _ E Hle). simpl.
        rewrite lookup_insert_eq. eexists; split; [done |].
        split; [done |]. split; [done |].
        intros w0 [= <-] Hlt. lia.
      * assert (t1 - fromtimestamp (window_start w) < 60 * MICROS_PER_SECOND)
          as Hlt by lia.
        rewrite (check_within _ _ _ _ E Hlt). simpl.
        rewrite lookup_insert_eq. eexists; split; [done |].
        split; [done |]. split; [| by intros w0 [= <-] _].
        intros w0 [= <-] Hle. lia.
    + rewrite (check_fresh _ _ _ E). simpl.
      rewrite lookup_insert_eq. eexists; split; [done |].
      split; [done |]. split; intros w0 [=].
Qed.

End ServiceProperties.

(** ** The rate limiter under [open_ticket] *)

Section WholeSeconds.

Lemma nearest_even_trunc a P :
  0 <= a → 524288 <= P →
  nearest_even (a * P) 1000000 / P = a / 1000000.
Proof.
  intros Ha HP. unfold nearest_even.
  pose proof (Z.div_mod (a * P) 1000000 ltac:(lia)) as Hq.
  pose proof (Z.mod_pos_bound (a * P) 1000000 ltac:(lia)) as Hr.
  pose proof (Z.div_mod a 1000000 ltac:(lia)) as HQ.
  pose proof (Z.mod_pos_bound a 1000000 ltac:(lia)) as HR.
  set (q := a * P / 1000000) in *. set (r := (a * P) mod 1000000) in *.
  set (Q := a / 1000000) in *. set (R := a mod 1000000) in *.
  assert (a * P = 1000000 * (Q * P) + R * P) as Hap by nia.
  assert (0 <= R * P <= 999999 * P) as HRP by nia.
  destruct (2 * r <? 1000000) eqn:E1;
    [| destruct (1000000 <? 2 * r) eqn:E2; [| destruct (Z.even q)]];
    try apply Z.ltb_lt in E1; try apply Z.ltb_ge in E1;
    try apply Z.ltb_lt in E2; try apply Z.ltb_ge in E2;
    symmetry.
  - apply (Z.div_unique _ P Q (q - Q * P)); lia.
  - apply (Z.div_unique _ P Q (q + 1 - Q * P)); lia.
  - apply (Z.div_unique _ P Q (q - Q * P)); lia.
  - apply (Z.div_unique _ P Q (q + 1 - Q * P)); lia.
Qed.

(** From the epoch to 2^34 seconds after it (2514-05-30T01:53:04Z) the
    float keeps the whole second: [int(d.timestamp())] is the count of
    whole seconds. *)
Lemma timestamp_int_floor (now : datetime) :
  0 <= now < 2 ^ 34 * MICROS_PER_SECOND →
  timestamp_int now = now / MICROS_PER_SECOND.
Proof.
  intros [Hlo Hhi]. unfold timestamp_int, MICROS_PER_SECOND in *.
  rewrite Z.abs_eq by lia.
  destruct (now <? 1000000) eqn:Esmall.
  - apply Z.ltb_lt in Esmall. by rewrite Z.div_small by lia.
  - apply Z.ltb_ge in Esmall.
    assert (0 < now / 1000000) as Hpos
      by (apply Z.div_str_pos; lia).
    assert (now / 1000000 < 2 ^ 34) as Hq
      by (apply Z.div_lt_upper_bound; lia).
    apply Z.log2_lt_pow2 in Hq; [| done].
    pose proof (Z.log2_nonneg (now / 1000000)) as He.
    set (e := Z.log2 (now / 1000000)) in *.
    assert ((e <=? 52) = true) as -> by (apply Z.leb_le; lia).
    rewrite Z.sgn_pos by lia. rewrite Z.mul_1_l.
    apply nearest_even_trunc; [lia |].
    change 524288 with (2 ^ 19). apply Z.pow_le_mono_r; lia.
Qed.

Lemma window_start_floor (now : datetime) :
  0 <= now < 2 ^ 34 * MICROS_PER_SECOND →
  fromtimestamp (timestamp_int now) <= now
  < fromtimestamp (timestamp_int now) + MICROS_PER_SECOND.
Proof.
  intros Hnow. rewrite (timestamp_int_floor now Hnow).
  unfold fromtimestamp, MICROS_PER_SECOND in *.
  pose proof (Z.div_mod now 1000000 ltac:(lia)) as Hdm.
  pose proof (Z.mod_pos_bound now 1000000 ltac:(lia)) as Hm. lia.
Qed.

End WholeSeconds.

Section LimiterUnderOpen.
Context `{PyRuntime}.

(** The limiter looks at nothing but [rate_limits]. *)
Lemma check_rate_limit_local uid now s1 s2 :
  rate_limits s1 = rate_limits s2 →
  fst (check_rate_limit uid now s1) = fst (check_rate_limit uid now s2) ∧
  rate_limits (snd (check_rate_limit uid now s1))
  = rate_limits (snd (check_rate_limit uid now s2)).
Proof.
  intros E. unfold check_rate_limit. rewrite E.
  destruct (rate_limits s2 !! uid) as [w |]; simpl; [| by rewrite E].
  destruct (60 * MICROS_PER_SECOND <=? _); simpl; [by rewrite E |].
  destruct (RATE_LIMIT_PER_MINUTE <? _); simpl; by rewrite E.
Qed.

Lemma check_many_local uid times : ∀ s1 s2,
  rate_limits s1 = rate_limits s2 →
  fst (check_many uid times s1) = fst (check_many uid times s2) ∧
  rate_limits (snd (check_many uid times s1))
  = rate_limits (snd (check_many uid times s2)).
Proof.
  induction times as [| t rest IH]; intros s1 s2 E; [done |].
  simpl. destruct (check_rate_limit_local uid t s1 s2 E) as [Hr Hs].
  destruct (check_rate_limit uid t s1) as [r1 s1'].
  destruct (check_rate_limit uid t s2) as [r2 s2']. simpl in *.
  destruct (IH s1' s2' Hs) as [Hrs Hss].
  destruct (check_many uid rest s1') as [rs1 s1''].
  destruct (check_many uid rest s2') as [rs2 s2'']. simpl in *.
  by rewrite Hr, Hrs.
Qed.

(** What [open_ticket] hands on of the limiter: its window, and its
    verdict. *)
Lemma open_ticket_limiter r ti d tg t1 t2 t3 s :
  rate_limits (snd (open_ticket r ti d tg t1 t2 t3 s))
  = rate_limits (snd (check_rate_limit r t1 s)) ∧
  limiter_view (fst (open_ticket r ti d tg t1 t2 t3 s))
  = fst (check_rate_limit r t1 s).
Proof.
  rewrite open_ticket_run. cbv zeta.
  pose proof (check_raises_only_rate_limit r t1 s) as Hraise.
  destruct (fst (check_rate_limit r t1 s)) as [[] | e].
  - destruct (users s !! r) as [u |]; [| done].
    by destruct (fst (can_open_ticket u _)).
  - by rewrite (Hraise e eq_refl).
Qed.

Lemma run_each_cons c rest s :
  run_each (c :: rest) s
  = (fst (run_call c s) :: fst (run_each rest (snd (run_call c s))),
     snd (run_each rest (snd (run_call c s)))).
Proof.
  simpl. destruct (run_call c s) as [r s1]. simpl.
  by destruct (run_each rest s1).
Qed.

Lemma check_many_cons uid t times s :
  check_many uid (t :: times) s
  = (fst (check_rate_limit uid t s)
       :: fst (check_many uid times (snd (check_rate_limit uid t s))),
     snd (check_many uid times (snd (check_rate_limit uid t s)))).
Proof.
  simpl. destruct (check_rate_limit uid t s) as [r s1]. simpl.
  by destruct (check_many uid times s1).
Qed.

Lemma run_call_open_limiter uid ti d tg t1 t2 t3 s :
  limiter_view (fst (run_call (Open uid ti d tg t1 t2 t3) s))
  = fst (check_rate_limit uid t1 s) ∧
  rate_limits (snd (run_call (Open uid ti d tg t1 t2 t3) s))
  = rate_limits (snd (check_rate_limit uid t1 s)).
Proof.
  rewrite run_call_run.
  destruct (open_ticket_limiter uid ti d tg t1 t2 t3 s) as [Hrl Hview].
  by destruct (open_ticket uid ti d tg t1 t2 t3 s) as [[t | e] s1].
Qed.

Lemma run_each_limiter uid cs : ∀ s,
  Forall (open_by uid (λ _, True)) cs →
  limiter_view <$> fst (run_each cs s)
  = fst (check_many uid (check_time <$> cs) s) ∧
  rate_limits (snd (run_each cs s))
  = rate_limits (snd (check_many uid (check_time <$> cs) s)).
Proof.
  induction cs as [| c rest IH]; intros s Hall; [done |].
  inversion Hall as [| ? ? Hc Hrest]; subst.
  destruct c as [r ti d tg t1 t2 t3 | |]; simpl in Hc; [| done | done].
  destruct Hc as [-> _].
  rewrite run_each_cons. cbn [fst snd]. rewrite !fmap_cons, check_many_cons.
  change (check_time (Open uid ti d tg t1 t2 t3)) with t1.
  destruct (run_call_open_limiter uid ti d tg t1 t2 t3 s) as [Hview Hrl].
  destruct (IH (snd (run_call (Open uid ti d tg t1 t2 t3) s)) Hrest)
    as [Hr Hs].
  destruct (check_many_local uid (check_time <$> rest) _ _ Hrl) as [Hr' Hs'].
  cbn [fst snd]. by rewrite Hview, Hr, Hr', Hs, Hs'.
Qed.

Lemma limiter_view_Ok {A} (r : result A) :
  limiter_view r = Ok tt → ∀ msg, r ≠ Raise (RateLimitError msg).
Proof. intros Hv msg ->. discriminate Hv. Qed.

Lemma limiter_view_Raise {A} (r : result A) e :
  limiter_view r = Raise e → r = Raise e.
Proof. destruct r as [a | []]; simpl; congruence. Qed.

(** C3, as the code has it.  With the limit at 30 per minute: a user
    without a window gets one with count 1 and passes; a user whose window
    started 60 seconds ago or more gets a new window with count 1 and
    passes; otherwise the count goes up by one, stays so, and the check
    raises the rate-limit error exactly when the new count is above 30.
    The start of a window is not the instant [now] but
    [int(now.timestamp())], which from the epoch to 2514-05-30 is the
    whole second of [now].  Hence, from no window, 31 checks inside one
    window answer 30 times yes and then no; of 31 openings by the user
    inside one window none of the first 30 is refused by the limiter (each
    may still be refused for an unknown requester or by the policy) and
    the 31st raises the rate-limit error; and an opening 61 seconds after
    the window's start is not refused by the limiter and leaves a window
    with count 1. *)
Theorem rate_limit_window (uid : string) (s : InMemoryStore) (now : datetime) :
  RATE_LIMIT_PER_MINUTE = 30 ∧
  (rate_limits s !! uid = None →
     fst (check_rate_limit uid now s) = Ok tt ∧
     rate_limits (snd (check_rate_limit uid now s))
     = <[uid := mkRateWindow (timestamp_int now) 1]> (rate_limits s)) ∧
  (∀ w, rate_limits s !! uid = Some w →
     60 * MICROS_PER_SECOND <= now - fromtimestamp (window_start w) →
     fst (check_rate_limit uid now s) = Ok tt ∧
     rate_limits (snd (check_rate_limit uid now s))
     = <[uid := mkRateWindow (timestamp_int now) 1]> (rate_limits s)) ∧
  (∀ w, rate_limits s !! uid = Some w →
     now - fromtimestamp (window_start w) < 60 * MICROS_PER_SECOND →
     rate_limits (snd (check_rate_limit uid now s))
     = <[uid := mkRateWindow (window_start w) (count w + 1)]> (rate_limits s) ∧
     (30 < count w + 1 →
        fst (check_rate_limit uid now s)
        = Raise (RateLimitError "rate limit exceeded")) ∧
     (count w + 1 <= 30 → fst (check_rate_limit uid now s) = Ok tt)) ∧
  (0 <= now < 2 ^ 34 * MICROS_PER_SECOND →
     timestamp_int now = now / MICROS_PER_SECOND ∧
     fromtimestamp (timestamp_int now) <= now
     < fromtimestamp (timestamp_int now) + MICROS_PER_SECOND) ∧
  (∀ rest, rate_limits s !! uid = None →
     length rest = 30%nat →
     Forall (λ t, t - fromtimestamp (timestamp_int now)
                  < 60 * MICROS_PER_SECOND) rest →
     fst (check_many uid (now :: rest) s)
     = replicate 30 (Ok tt) ++ [Raise (RateLimitError "rate limit exceeded")]) ∧
  (∀ first rest, rate_limits s !! uid = None →
     open_by uid (λ t, t = now) first →
     length rest = 30%nat →
     Forall (open_by uid
               (λ t, t - fromtimestamp (timestamp_int now)
                     < 60 * MICROS_PER_SECOND)) rest →
     (∀ i r, (i < 30)%nat → fst (run_each (first :: rest) s) !! i = Some r →
        ∀ msg, r ≠ Raise (RateLimitError msg)) ∧
     fst (run_each (first :: rest) s) !! 30%nat
     = Some (Raise (RateLimitError "rate limit exceeded"))) ∧
  (∀ w ti d tg t2 t3, rate_limits s !! uid = Some w →
     let later := fromtimestamp (window_start w) + 61 * MICROS_PER_SECOND in
     let out := open_ticket uid ti d tg later t2 t3 s in
     (∀ msg, fst out ≠ Raise (RateLimitError msg)) ∧
     rate_limits (snd out) !! uid
     = Some (mkRateWindow (timestamp_int later) 1)).
Proof.
  assert (∀ rest, rate_limits s !! uid = None →
            length rest = 30%nat →
            Forall (λ t, t - fromtimestamp (timestamp_int now)
                         < 60 * MICROS_PER_SECOND) rest →
            fst (check_many uid (now :: rest) s)
            = replicate 30 (Ok tt)
              ++ [Raise (RateLimitError "rate limit exceeded")]) as Hmany.
  { intros rest E Hlen Hall. simpl check_many.
    rewrite (check_fresh _ _ _ E).
    set (s1 := with_rate_limits _ s).
    assert (rate_limits s1 !! uid = Some (mkRateWindow (timestamp_int now) 1))
      as E1 by apply lookup_insert_eq.
    destruct (check_many_within uid rest s1 _ E1 Hall) as [Hr _].
    destruct (check_many uid rest s1) as [rs s2]. simpl in *.
    rewrite Hr, Hlen. reflexivity. }
  split; [reflexivity |].
  split; [intros E; by rewrite (check_fresh _ _ _ E) |].
  split; [intros w E Hle; by rewrite (check_rollover _ _ _ _ E Hle) |].
  split.
  { intros w E Hlt. rewrite (check_within _ _ _ _ E Hlt). simpl.
    split; [done |]. unfold RATE_LIMIT_PER_MINUTE. split; intros Hc.
    - by apply Z.ltb_lt in Hc as ->.
    - assert ((30 <? count w + 1) = false) as -> by (apply Z.ltb_ge; lia). done. }
  split.
  { intros Hnow. split; [by apply timestamp_int_floor |].
    by apply window_start_floor. }
  split; [exact Hmany |].
  split.
  { intros first rest E Hfirst Hlen Hall.
    assert (Forall (open_by uid (λ _, True)) (first :: rest)) as Hopens.
    { constructor.
      - destruct first; simpl in *; tauto.
      - eapply Forall_impl; [exact Hall |].
        intros c Hc. destruct c; simpl in *; tauto. }
    destruct (run_each_limiter uid (first :: rest) s Hopens) as [Hview _].
    assert (check_time first = now) as Hnow
      by (destruct first; simpl in *; tauto).
    rewrite fmap_cons, Hnow in Hview.
    rewrite (Hmany (check_time <$> rest)) in Hview; [| done | | ].
    - split.
      + intros i r Hi Hr. apply limiter_view_Ok.
        assert ((limiter_view <$> fst (run_each (first :: rest) s)) !! i
                = Some (limiter_view r)) as Hi'
          by (by rewrite list_lookup_fmap, Hr).
        rewrite Hview in Hi'.
        rewrite lookup_app_l in Hi' by (by rewrite length_replicate).
        rewrite lookup_replicate_2 in Hi' by done. congruence.
      + assert ((limiter_view <$> fst (run_each (first :: rest) s)) !! 30%nat
                = Some (Raise (RateLimitError "rate limit exceeded"))) as Hlast
          by (by rewrite Hview).
        rewrite list_lookup_fmap in Hlast.
        destruct (fst (run_each (first :: rest) s) !! 30%nat) as [r |];
          [| discriminate Hlast].
        simpl in Hlast. injection Hlast as Hlast.
        by rewrite (limiter_view_Raise _ _ Hlast).
    - by rewrite length_fmap.
    - apply Forall_fmap. eapply Forall_impl; [exact Hall |].
      intros c Hc. destruct c; simpl in *; tauto. }
  intros w ti d tg t2 t3 E later out.
  destruct (open_ticket_limiter uid ti d tg later t2 t3 s) as [Hrl Hview].
  assert (60 * MICROS_PER_SECOND <= later - fromtimestamp (window_start w))
    as Hle by (unfold later, MICROS_PER_SECOND; lia).
  rewrite (check_rollover _ _ _ _ E Hle) in Hrl, Hview. simpl in Hrl, Hview.
  split; [by apply limiter_view_Ok |].
  unfold out. rewrite Hrl. apply lookup_insert_eq.
Qed.

End LimiterUnderOpen.

(** ** Closed tickets *)

Section ClosedTickets.
Context `{PyRuntime}.

Lemma store_ok_seeded us : store_ok (seeded us).
Proof. intros k t. simpl. by rewrite lookup_empty. Qed.

Lemma store_ok_step c s : store_ok s → store_ok (snd (run_call c s)).
Proof.
  intros Hok. rewrite run_call_run.
  destruct c as [r ti d tg t1 t2 t3 | tid agents t3 | tid actor t3].
  - rewrite open_ticket_run. cbv zeta.
    pose proof (check_rate_limit_frame r t1 s) as (_ & Ht & _ & _ & Hc).
    assert (store_ok (snd (check_rate_limit r t1 s))) as Hok1.
    { intros k t. rewrite Ht, Hc. apply Hok. }
    destruct (fst (check_rate_limit r t1 s)); [| exact Hok1].
    destruct (users s !! r) as [u |]; [| exact Hok1].
    destruct (fst (can_open_ticket u _)); [| exact Hok1].
    intros k t. simpl. rewrite lookup_insert. case_decide as Hk.
    + intros _. exists (N.succ (id_counter s)). split; [done | lia].
    + intros Hl. destruct (Hok _ _ Hl) as (n & -> & Hn). exists n.
      split; [done | lia].
  - rewrite assign_ticket_flow_run.
    destruct (tickets s !! tid) as [ticket |] eqn:E; [| exact Hok].
    destruct (py_min_by_load agents) as [best |]; [| exact Hok].
    intros k t. simpl. rewrite lookup_insert. case_decide as Hk.
    + subst k. intros _. destruct (Hok _ _ E) as (n & -> & Hn). exists n.
      split; [done | lia].
    + intros Hl. destruct (Hok _ _ Hl) as (n & -> & Hn). exists n.
      split; [done | lia].
  - rewrite close_ticket_run.
    destruct (tickets s !! tid) as [ticket |] eqn:E; [| exact Hok].
    intros k t. simpl. rewrite lookup_insert. case_decide as Hk.
    + subst k. intros _. destruct (Hok _ _ E) as (n & -> & Hn). exists n.
      split; [done | lia].
    + intros Hl. destruct (Hok _ _ Hl) as (n & -> & Hn). exists n.
      split; [done | lia].
Qed.

(** Every store the service can reach from a seeded one is well formed. *)
Lemma store_ok_reachable cs : ∀ s, store_ok s → store_ok (run_calls cs s).
Proof.
  induction cs as [| c cs IH]; intros s Hok; [done |].
  simpl. apply IH. by apply store_ok_step.
Qed.

Lemma set_status_closed_id t : status t = "closed" → set_status "closed" t = t.
Proof. destruct t; simpl. by intros ->. Qed.

Lemma set_assigned_to_same t : set_assigned_to (assigned_to t) t = t.
Proof. by destruct t. Qed.

(** C2, as the code has it.  In a store whose ticket keys all come from
    [next_id], a closed ticket stays in the store and stays closed under
    every call of the service: none reopens it, and none changes any of its
    fields other than [assigned_to].  That field, however, is written by
    [assign_ticket_flow] whatever the status: assigning a closed ticket
    succeeds and sets its assignee to the least loaded agent. *)
Theorem closed_stays_closed (c : call) (s : InMemoryStore) (k : string)
    (t : Ticket) :
  store_ok s →
  tickets s !! k = Some t →
  status t = "closed" →
  (∃ t', tickets (snd (run_call c s)) !! k = Some t' ∧
         status t' = "closed" ∧
         t' = set_assigned_to (assigned_to t') t ∧
         (assigned_to t' ≠ assigned_to t → ∃ agents t3, c = Assign k agents t3)) ∧
  (∀ agents t3 best, py_min_by_load agents = Some best →
     ∃ notice s',
       assign_ticket_flow k agents t3 s = (Ok notice, s') ∧
       tickets s' !! k = Some (set_assigned_to (Some (fst best)) t)).
Proof.
  intros Hok Hk Hst. split.
  - rewrite run_call_run.
    destruct c as [r ti d tg t1 t2 t3 | tid agents t3 | tid actor t3].
    + rewrite open_ticket_run. cbv zeta.
      pose proof (check_rate_limit_frame r t1 s) as (_ & Ht & _).
      assert (∃ t', tickets (snd (check_rate_limit r t1 s)) !! k = Some t' ∧
                status t' = "closed" ∧ t' = set_assigned_to (assigned_to t') t ∧
                (assigned_to t' ≠ assigned_to t →
                 ∃ agents t0, Open r ti d tg t1 t2 t3 = Assign k agents t0))
        as Hsame.
      { exists t. rewrite Ht. by rewrite set_assigned_to_same. }
      destruct (fst (check_rate_limit r t1 s)); [| exact Hsame].
      destruct (users s !! r) as [u |]; [| exact Hsame].
      destruct (fst (can_open_ticket u _)); [| exact Hsame].
      simpl. exists t. rewrite lookup_insert_ne.
      * by rewrite set_assigned_to_same.
      * intros Heq. destruct (Hok _ _ Hk) as (n & -> & Hn).
        apply format_id_inj in Heq. lia.
    + rewrite assign_ticket_flow_run.
      destruct (decide (tid = k)) as [-> | Hne].
      * rewrite Hk. destruct (py_min_by_load agents) as [best |]; simpl.
        -- rewrite lookup_insert_eq. eexists. split; [done |].
           split; [done |]. split; [by destruct t | eauto].
        -- exists t. by rewrite set_assigned_to_same.
      * destruct (tickets s !! tid) as [ticket |];
          [destruct (py_min_by_load agents) as [best |] |]; simpl;
          rewrite ?lookup_insert_ne by done;
          exists t; by rewrite set_assigned_to_same.
    + rewrite close_ticket_run.
      destruct (decide (tid = k)) as [-> | Hne].
      * rewrite Hk. simpl. rewrite lookup_insert_eq.
        rewrite (set_status_closed_id _ Hst).
        exists t. by rewrite set_assigned_to_same.
      * destruct (tickets s !! tid) as [ticket |]; simpl;
          rewrite ?lookup_insert_ne by done;
          exists t; by rewrite set_assigned_to_same.
  - intros agents t3 best Hbest. rewrite assign_ticket_flow_run, Hk, Hbest.
    do 2 eexists. split; [done |]. simpl. by rewrite lookup_insert_eq.
Qed.

End ClosedTickets.

(** ** Identifier sequences *)

Section IdSequences.

Lemma next_ids_run prefixes : ∀ s,
  ∃ ids s',
    for_each next_id prefixes s = (Ok ids, s') ∧
    id_counter s' = (id_counter s + N.of_nat (length prefixes))%N ∧
    length ids = length prefixes ∧
    ∀ i p, prefixes !! i = Some p →
      ids !! i = Some (format_id p (id_counter s + N.of_nat (S i))).
Proof.
  induction prefixes as [| p rest IH]; intros s.
  - exists [], s. simpl. repeat split; [lia | done].
  - destruct (IH (with_id_counter N.succ s)) as (ids & s' & Hrun & Hc & Hl & Hi).
    exists (format_id p (N.succ (id_counter s)) :: ids), s'.
    split; [| split; [| split]].
    + simpl. run_M. rewrite next_id_run, Hrun. done.
    + rewrite Hc. simpl. lia.
    + simpl. by rewrite Hl.
    + intros [| i] q Hq; simpl in *.
      * injection Hq as ->. do 2 f_equal. lia.
      * rewrite (Hi _ _ Hq). simpl. do 2 f_equal. lia.
Qed.

(** The numbers of the identifiers handed out, in call order, are the
    successive values of the one counter, whatever the prefixes. *)
Lemma next_ids_numbers prefixes s ids s' :
  for_each next_id prefixes s = (Ok ids, s') →
  ∀ i id, ids !! i = Some id →
    ∃ p, prefixes !! i = Some p ∧
         id = format_id p (id_counter s + N.of_nat (S i)) ∧
         id_number id = Some (id_counter s + N.of_nat (S i))%N.
Proof.
  intros Hrun i id Hid.
  destruct (next_ids_run prefixes s) as (ids0 & s0 & Hrun0 & _ & Hl & Hi).
  rewrite Hrun in Hrun0. injection Hrun0 as <- <-.
  assert (i < length prefixes)%nat as Hlt
    by (rewrite <- Hl; by apply lookup_lt_Some with id).
  destruct (lookup_lt_is_Some_2 prefixes i Hlt) as [p Hp].
  exists p. split; [done |].
  rewrite (Hi _ _ Hp) in Hid. injection Hid as <-.
  split; [done | apply id_number_format_id].
Qed.

Lemma next_ids_increasing prefixes s ids s' :
  for_each next_id prefixes s = (Ok ids, s') →
  ∀ i j a b, (i < j)%nat → ids !! i = Some a → ids !! j = Some b →
    a ≠ b ∧
    ∃ na nb, id_number a = Some na ∧ id_number b = Some nb ∧ (na < nb)%N.
Proof.
  intros Hrun i j a b Hij Ha Hb.
  destruct (next_ids_numbers _ _ _ _ Hrun _ _ Ha) as (p & _ & _ & Hna).
  destruct (next_ids_numbers _ _ _ _ Hrun _ _ Hb) as (q & _ & _ & Hnb).
  split.
  - intros ->. rewrite Hna in Hnb. injection Hnb. lia.
  - do 2 eexists. split; [exact Hna |]. split; [exact Hnb | lia].
Qed.

(** C5. Any sequence of [next_id] calls on one store returns; the
    identifiers returned are all different, and of two calls with the same
    prefix the later one returns a different identifier with a strictly
    greater number. *)
Theorem next_id_unique_increasing (prefixes : list string) (s : InMemoryStore) :
  ∃ ids s',
    for_each next_id prefixes s = (Ok ids, s') ∧
    length ids = length prefixes ∧
    NoDup ids ∧
    ∀ i j p a b, (i < j)%nat →
      prefixes !! i = Some p → prefixes !! j = Some p →
      ids !! i = Some a → ids !! j = Some b →
      a ≠ b ∧
      ∃ na nb, a = format_id p na ∧ b = format_id p nb ∧
               id_number a = Some na ∧ id_number b = Some nb ∧ (na < nb)%N.
Proof.
  destruct (next_ids_run prefixes s) as (ids & s' & Hrun & _ & Hl & Hi).
  exists ids, s'. split; [done |]. split; [done |]. split.
  - apply NoDup_alt. intros i j a Ha Hb.
    destruct (Nat.lt_trichotomy i j) as [Hlt | [-> | Hlt]]; [| done |].
    + by destruct (next_ids_increasing _ _ _ _ Hrun _ _ _ _ Hlt Ha Hb).
    + by destruct (next_ids_increasing _ _ _ _ Hrun _ _ _ _ Hlt Hb Ha).
  - intros i j p a b Hij Hpi Hpj Ha Hb.
    split; [by destruct (next_ids_increasing _ _ _ _ Hrun _ _ _ _ Hij Ha Hb) |].
    rewrite (Hi _ _ Hpi) in Ha. rewrite (Hi _ _ Hpj) in Hb.
    injection Ha as <-. injection Hb as <-.
    do 2 eexists. split; [done |]. split; [done |].
    rewrite !id_number_format_id. split; [done |]. split; [done | lia].
Qed.

(** As texts the identifiers are not ordered like their numbers once the
    number outgrows the four digits of the padding. *)
Remark id_text_order_after_9999 :
  String.compare (format_id "ticket" 9999) (format_id "ticket" 10000) = Gt.
Proof. vm_compute. reflexivity. Qed.

End IdSequences.

Section OneCounter.
Context `{PyRuntime}.

(** C10. One counter serves all prefixes: the numbers of the identifiers a
    store hands out are the successive counter values, hence different and
    strictly increasing across prefixes; a successful [open_ticket] takes
    two of them, the first for the ticket and the second for its audit
    event, so the tickets of two successive openings are two apart. *)
Theorem one_counter_for_all_prefixes (s : InMemoryStore) :
  (∀ prefixes,
     ∃ ids s',
       for_each next_id prefixes s = (Ok ids, s') ∧
       id_counter s' = (id_counter s + N.of_nat (length prefixes))%N ∧
       (∀ i id, ids !! i = Some id →
          id_number id = Some (id_counter s + N.of_nat (S i))%N) ∧
       (∀ i j a b, (i < j)%nat → ids !! i = Some a → ids !! j = Some b →
          a ≠ b ∧
          ∃ na nb, id_number a = Some na ∧ id_number b = Some nb ∧
                   (na < nb)%N)) ∧
  (∀ r ti d tg t1 t2 t3 t s',
     open_ticket r ti d tg t1 t2 t3 s = (Ok t, s') →
     id_counter s' = (id_counter s + 2)%N ∧
     ticket_id t = format_id "ticket" (id_counter s + 1) ∧
     ∃ ev, audits s' = audits s ++ [ev] ∧
           audit_id ev = format_id "audit" (id_counter s + 2) ∧
     ∀ r' ti' d' tg' t1' t2' t3' t' s'',
       open_ticket r' ti' d' tg' t1' t2' t3' s' = (Ok t', s'') →
       id_number (ticket_id t) = Some (id_counter s + 1)%N ∧
       id_number (ticket_id t') = Some (id_counter s + 3)%N).
Proof.
  split.
  - intros prefixes.
    destruct (next_ids_run prefixes s) as (ids & s' & Hrun & Hc & _ & _).
    exists ids, s'. split; [done |]. split; [done |]. split.
    + intros i id Hid.
      by destruct (next_ids_numbers _ _ _ _ Hrun _ _ Hid) as (p & _ & _ & Hn).
    + by apply next_ids_increasing with prefixes s s'.
  - assert (∀ r ti d tg t1 t2 t3 s0 t s',
              open_ticket r ti d tg t1 t2 t3 s0 = (Ok t, s') →
              t = opened_ticket r ti d tg t2 s0 ∧
              s' = opened_store r ti d tg t1 t2 t3 s0) as Hopen.
    { intros r ti d tg t1 t2 t3 s0 t s'. rewrite open_ticket_run. cbv zeta.
      destruct (fst (check_rate_limit r t1 s0)); [| intros [=]].
      destruct (users s0 !! r) as [u |]; [| intros [=]].
      destruct (fst (can_open_ticket u _)); intros [= <- <-]. done. }
    intros r ti d tg t1 t2 t3 t s' Hrun.
    destruct (Hopen _ _ _ _ _ _ _ _ _ _ Hrun) as [-> ->]. simpl.
    split; [lia |].
    split; [f_equal; lia |].
    eexists. split; [done |]. simpl. split; [f_equal; lia |].
    intros r' ti' d' tg' t1' t2' t3' t' s'' Hrun'.
    destruct (Hopen _ _ _ _ _ _ _ _ _ _ Hrun') as [-> ->]. simpl.
    rewrite !id_number_format_id. split; f_equal; lia.
Qed.

End OneCounter.

(** ** Severity classification *)

Section Severity.

Import PyStr.

Lemma prefix_spec w : ∀ s, String.prefix w s = true ↔ ∃ b, s = w +:+ b.
Proof.
  induction w as [| c w IH]; intros s.
  - split; [intros _; by exists s | by destruct s].
  - destruct s as [| c' s]; simpl.
    + split; [done | intros [b Hb]; discriminate Hb].
    + destruct (ascii_dec c c') as [-> | Hne].
      * rewrite IH. split; intros [b Hb]; exists b.
        -- rewrite append_cons. by rewrite <- Hb.
        -- rewrite append_cons in Hb. by injection Hb.
      * split; [done |]. intros [b Hb]. rewrite append_cons in Hb.
        injection Hb as Hc _. congruence.
Qed.

Lemma contains_spec w : ∀ s, contains w s = true ↔ occurs_in w s.
Proof.
  induction s as [| c s IH].
  - cbn [contains]. rewrite orb_false_r, prefix_spec. split.
    + intros [b Hb]. by exists "", b.
    + intros ([| c a] & b & Hab); [by exists b |].
      rewrite append_cons in Hab. discriminate Hab.
  - cbn [contains]. rewrite orb_true_iff, prefix_spec, IH. split.
    + intros [[b Hb] | (a & b & Hab)].
      * by exists "", b.
      * exists (String c a), b. rewrite append_cons. by rewrite <- Hab.
    + intros ([| c' a] & b & Hab).
      * left. by exists b.
      * right. rewrite append_cons in Hab. injection Hab as _ Hab.
        by exists a, b.
Qed.

Lemma existsb_hits words h :
  existsb (λ word, contains word h) words = true ↔ hits words h.
Proof.
  rewrite existsb_exists. unfold hits. split; intros (w & Hw & Hc); exists w.
  - by rewrite list_elem_of_In, <- contains_spec.
  - by rewrite <- list_elem_of_In, contains_spec.
Qed.

Lemma existsb_no_hits words h :
  existsb (λ word, contains word h) words = false ↔ ¬ hits words h.
Proof. rewrite <- existsb_hits. by destruct (existsb _ words). Qed.

Lemma lower_char_idem c : lower_char (lower_char c) = lower_char c.
Proof. destruct c as [[] [] [] [] [] [] [] []]; reflexivity. Qed.

Lemma lower_idem s : lower (lower s) = lower s.
Proof. induction s as [| c s IH]; simpl; [done |]. by rewrite lower_char_idem, IH. Qed.

Lemma lower_app a b : lower (a +:+ b) = lower a +:+ lower b.
Proof.
  induction a as [| c a IH]; [done |].
  rewrite append_cons. simpl. by rewrite IH.
Qed.

(** C7, as the code has it.  [classify_severity] lowers the text made of
    the title, one space and the description, and tries the groups in
    the order critical, high, medium: the label is that of the first
    group of which a keyword occurs in the text, and "low" when none
    does; so a critical keyword decides whatever else occurs.  Letter
    case does not matter. *)
Theorem classify_severity_spec (title description : string) :
  let text := lower (title +:+ " " +:+ description) in
  KEYWORDS = [ ("critical", ["outage"; "data loss"; "breach"]);
               ("high", ["failure"; "crash"; "error"]);
               ("medium", ["latency"; "slow"; "timeout"]) ] ∧
  (hits ["outage"; "data loss"; "breach"] text →
     classify_severity title description = "critical") ∧
  (¬ hits ["outage"; "data loss"; "breach"] text →
   hits ["failure"; "crash"; "error"] text →
     classify_severity title description = "high") ∧
  (¬ hits ["outage"; "data loss"; "breach"] text →
   ¬ hits ["failure"; "crash"; "error"] text →
   hits ["latency"; "slow"; "timeout"] text →
     classify_severity title description = "medium") ∧
  (¬ hits ["outage"; "data loss"; "breach"] text →
   ¬ hits ["failure"; "crash"; "error"] text →
   ¬ hits ["latency"; "slow"; "timeout"] text →
     classify_severity title description = "low") ∧
  classify_severity (lower title) (lower description)
  = classify_severity title description.
Proof.
  intros text. split; [reflexivity |].
  unfold classify_severity. fold text. unfold KEYWORDS, classify_in.
  split; [| split; [| split; [| split]]].
  - intros Hc. by apply existsb_hits in Hc as ->.
  - intros Hc Hh. apply existsb_no_hits in Hc as ->.
    by apply existsb_hits in Hh as ->.
  - intros Hc Hh Hm. apply existsb_no_hits in Hc as ->.
    apply existsb_no_hits in Hh as ->. by apply existsb_hits in Hm as ->.
  - intros Hc Hh Hm. apply existsb_no_hits in Hc as ->.
    apply existsb_no_hits in Hh as ->. by apply existsb_no_hits in Hm as ->.
  - assert (lower (lower title +:+ " " +:+ lower description) = text) as ->;
      [| done].
    unfold text. by rewrite !lower_app, !lower_idem.
Qed.

End Severity.

Lemma classify_severity_spec_witness :
  classify_severity "Data loss incident" "" = "critical" ∧
  classify_severity "Slow after the OUTAGE" "timeout" = "critical".
Proof.
  split.
  - destruct (classify_severity_spec "Data loss incident" "") as (_ & Hc & _).
    apply Hc. exists "data loss". split; [set_solver |].
    by exists "", " incident ".
  - destruct (classify_severity_spec "Slow after the OUTAGE" "timeout")
      as (_ & Hc & _).
    apply Hc. exists "outage". split; [set_solver |].
    by exists "slow after the ", " timeout".
Defined.

(** C7 as stated fails: scanning the plain concatenation would find
    "outage" in the title "out" followed by the description "age", while
    the code puts a space between them and finds nothing. *)
Lemma classify_severity_not_concat :
  classify_severity_concat "out" "age" = "critical" ∧
  classify_severity "out" "age" = "low" ∧
  ¬ (∀ title description,
       classify_severity title description
       = classify_severity_concat title description).
Proof.
  split; [reflexivity |]. split; [reflexivity |].
  intros Hall. specialize (Hall "out" "age"). vm_compute in Hall.
  discriminate Hall.
Qed.

(** ** SLA report *)

Section Report.
Context `{PyRuntime}.







End Report.

(** ** The properties on concrete runs *)

Section Runs.

Import Examples.
#[local] Existing Instance runtime.

Lemma audit_grows_by_one_witness :
  let c := Open "u1" "slow response" "" [] 0 0 0 in
  length (audits (snd (run_call c store0))) = 1%nat ∧
  ∃ ev, audits (snd (run_call c store0)) = audits store0 ++ [ev] ∧
        action ev = "ticket.open".
Proof.
  intros c.
  apply (audit_grows_by_one c store0 (snd (run_call c store0))
           (ATicket (opened_ticket "u1" "slow response" "" [] 0 store0))).
  vm_compute. reflexivity.
Defined.

Lemma open_ticket_failure_witness :
  let out := open_ticket "nobody" "printer" "it is broken" [] 0 0 0 store0 in
  tickets (snd out) = tickets store0 ∧ audits (snd out) = audits store0.
Proof.
  intros out.
  destruct (open_ticket_failure "nobody" "printer" "it is broken" [] 0 0 0
              store0 (snd out) (TicketError "requester not found"))
    as [(Ht & Ha & _) _].
  - vm_compute. reflexivity.
  - by split.
Defined.

Lemma open_ticket_consumes_quota_witness :
  let out := open_ticket "nobody" "printer" "it is broken" [] 7000000 0 0
               store0 in
  fst out = Raise (TicketError "requester not found") ∧
  rate_limits (snd out) !! "nobody" = Some (mkRateWindow 7 1).
Proof.
  intros out.
  destruct (open_ticket_consumes_quota "nobody" "printer" "it is broken" []
              7000000 0 0 store0) as (_ & _ & Hnf & _ & w' & Hw & Hnew & _).
  split.
  - apply Hnf; reflexivity.
  - fold out in Hw. rewrite Hw. f_equal. apply Hnew. reflexivity.
Defined.

(** C2 as stated fails: a closed ticket is assigned. *)
Lemma closed_ticket_is_assigned :
  let out := assign_ticket_flow "ticket-0001" [("a1", 3); ("a2", 1)] 0
               store_closed in
  status <$> tickets store_closed !! "ticket-0001" = Some "closed" ∧
  assigned_to <$> tickets store_closed !! "ticket-0001" = Some None ∧
  fst out = Ok [ ("kind", "assignment"); ("ticket_id", "ticket-0001");
                 ("agent_id", "a2"); ("severity", "medium") ] ∧
  status <$> tickets (snd out) !! "ticket-0001" = Some "closed" ∧
  assigned_to <$> tickets (snd out) !! "ticket-0001" = Some (Some "a2").
Proof. vm_compute. repeat split. Qed.

Lemma closed_stays_closed_witness :
  ∃ t',
    tickets (snd (run_call (Open "u1" "again" "" [] 0 0 0) store_closed))
      !! "ticket-0001" = Some t' ∧
    status t' = "closed".
Proof.
  destruct (closed_stays_closed (Open "u1" "again" "" [] 0 0 0)
              store_closed "ticket-0001"
              (mkTicket "ticket-0001" "slow response" "" "medium" "closed"
                        "u1" "0" None []))
    as [(t' & Ht' & Hst' & _) _].
  - apply store_ok_reachable, store_ok_seeded.
  - vm_compute. reflexivity.
  - reflexivity.
  - exists t'. split; [exact Ht' | exact Hst'].
Defined.

Lemma next_id_unique_increasing_witness :
  "ticket-0001" ≠ "ticket-0003" ∧
  ∃ na nb, id_number "ticket-0001" = Some na ∧
           id_number "ticket-0003" = Some nb ∧ (na < nb)%N.
Proof.
  destruct (next_id_unique_increasing ["ticket"; "audit"; "ticket"] new_store)
    as (ids & s' & Hrun & _ & _ & Hinc).
  vm_compute in Hrun. injection Hrun as <- _.
  destruct (Hinc 0%nat 2%nat "ticket" "ticket-0001" "ticket-0003")
    as (Hne & na & nb & _ & _ & Ha & Hb & Hlt);
    [lia | reflexivity | reflexivity | reflexivity | reflexivity |].
  split; [exact Hne |]. by exists na, nb.
Defined.

Lemma one_counter_for_all_prefixes_witness :
  let out := open_ticket "u1" "slow response" "" [] 0 0 0 store0 in
  id_counter (snd out) = 2%N ∧
  ticket_id <$> tickets (snd out) !! "ticket-0001" = Some "ticket-0001" ∧
  audit_id <$> audits (snd out) = ["audit-0002"].
Proof.
  intros out.
  destruct (one_counter_for_all_prefixes store0) as [_ Hopen].
  destruct (Hopen "u1" "slow response" "" [] 0 0 0
              (opened_ticket "u1" "slow response" "" [] 0 store0) (snd out))
    as (Hc & _ & ev & Hev & Hid & _).
  - vm_compute. reflexivity.
  - split; [exact Hc |]. split; [vm_compute; reflexivity |].
    rewrite Hev. simpl. by rewrite Hid.
Defined.


Lemma rate_limit_window_witness :
  fst (check_rate_limit "u1" 5 new_store) = Ok tt ∧
  fst (check_many "u1" (5 :: replicate 30 59999999) new_store)
  = replicate 30 (Ok tt) ++ [Raise (RateLimitError "rate limit exceeded")] ∧
  fst (run_each (Open "nobody" "printer" "" [] 5 0 0
                   :: replicate 30 (Open "nobody" "printer" "" [] 59999999 0 0))
                new_store) !! 30%nat
  = Some (Raise (RateLimitError "rate limit exceeded")).
Proof.
  destruct (rate_limit_window "nobody" new_store 5)
    as (_ & _ & _ & _ & _ & _ & Hopens & _).
  destruct (rate_limit_window "u1" new_store 5)
    as (_ & Ha & _ & _ & _ & Hd & _).
  split; [| split].
  - apply Ha. reflexivity.
  - apply Hd.
    + reflexivity.
    + reflexivity.
    + apply Forall_forall. intros t Ht.
      apply elem_of_replicate in Ht as [-> _].
      vm_compute. reflexivity.
  - apply Hopens.
    + reflexivity.
    + split; reflexivity.
    + reflexivity.
    + apply Forall_forall. intros c Hc.
      apply elem_of_replicate in Hc as [-> _].
      split; [reflexivity | vm_compute; reflexivity].
Defined.

(** C3 as stated fails.  Six openings by one user at the same instant lie
    inside one window, yet the sixth does not succeed: the limiter lets it
    pass (count 6) and the policy refuses it.  And the start of a window is
    not [now]: a check at 61.5 seconds restarts the window at second 61. *)
Lemma sixth_open_is_refused :
  let cs := replicate 6 (Open "u1" "printer" "paper jam" [] 0 0 0) in
  let late := snd (check_rate_limit "u1" 61500000
                     (snd (check_rate_limit "u1" 0 new_store))) in
  fst (run_each cs store0) !! 5%nat
  = Some (Raise (TicketError "too many open tickets")) ∧
  count <$> rate_limits (snd (run_each cs store0)) !! "u1" = Some 6 ∧
  rate_limits late !! "u1" = Some (mkRateWindow 61 1) ∧
  fromtimestamp 61 ≠ 61500000.
Proof. vm_compute. repeat split. discriminate. Qed.

End Runs.

(** * Further properties of the code *)

(** ** Choosing the agent *)

Section LeastLoaded.

Lemma min_from_first_least rest : ∀ best,
  first_least (best :: rest) (min_from best rest).
Proof.
  induction rest as [| x rest IH]; intros best.
  - exists 0%nat. split; [done |]. split.
    + intros a Ha. apply list_elem_of_singleton in Ha as ->. simpl. lia.
    + intros j a Hj. lia.
  - simpl. destruct (snd x <? snd best) eqn:Hlt.
    + apply Z.ltb_lt in Hlt.
      destruct (IH x) as (i & Hi & Hall & Hbefore).
      assert (snd (min_from x rest) <= snd x) as Hx
        by (apply Hall; left).
      exists (S i). split; [done |]. split.
      * intros a Ha. apply elem_of_cons in Ha as [-> | Ha]; [lia | by apply Hall].
      * intros [| j] a Hj Ha; simpl in Ha.
        -- injection Ha as <-. lia.
        -- apply (Hbefore j); [lia | done].
    + apply Z.ltb_ge in Hlt.
      destruct (IH best) as (i & Hi & Hall & Hbefore).
      assert (snd (min_from best rest) <= snd best) as Hb
        by (apply Hall; left).
      destruct i as [| i].
      * exists 0%nat. split; [done |]. split.
        -- intros a Ha. apply elem_of_cons in Ha as [-> | Ha]; [lia |].
           apply elem_of_cons in Ha as [-> | Ha]; [lia |].
           apply Hall. by right.
        -- intros j a Hj. lia.
      * exists (S (S i)). split; [done |]. split.
        -- intros a Ha. apply elem_of_cons in Ha as [-> | Ha]; [lia |].
           apply elem_of_cons in Ha as [-> | Ha]; [lia |].
           apply Hall. by right.
        -- assert (snd (min_from best rest) < snd best) as Hstrict
             by (apply (Hbefore 0%nat); [lia | done]).
           intros [| [| j]] a Hj Ha; simpl in Ha.
           ++ injection Ha as <-. lia.
           ++ injection Ha as <-. lia.
           ++ apply (Hbefore (S j)); [lia | done].
Qed.

(** X1. [min(agents, key=load)] of [assign_ticket]: on an empty list there
    is no answer (the [ValueError] of [min]); otherwise the answer is an
    item of the list whose load no other item undercuts, and the first such
    item: every item before it has a strictly greater load. *)
Theorem py_min_by_load_first_least (agents : list (string * Z)) :
  (agents = [] → py_min_by_load agents = None) ∧
  (agents ≠ [] →
     ∃ best, py_min_by_load agents = Some best ∧ first_least agents best).
Proof.
  split; [by intros -> |].
  destruct agents as [| a rest]; [done |]. intros _.
  exists (min_from a rest). split; [done | apply min_from_first_least].
Qed.

Lemma py_min_by_load_first_least_witness :
  ∃ best, py_min_by_load [("a1", 3); ("a2", 1); ("a3", 5); ("a4", 1)] = Some best
          ∧ first_least [("a1", 3); ("a2", 1); ("a3", 5); ("a4", 1)] best.
Proof.
  apply (py_min_by_load_first_least [("a1", 3); ("a2", 1); ("a3", 5); ("a4", 1)]).
  discriminate.
Defined.

End LeastLoaded.

(** ** What the service leaves behind *)

Section ServiceEdges.
Context `{PyRuntime}.

(** X2. [assign_ticket_flow] raises only for a missing ticket
    ("ticket not found", checked first) or for an empty list of agents (the
    [ValueError] of [min]); [close_ticket] raises only for a missing
    ticket.  In each case the store is exactly as it was: nothing is
    assigned and no audit event is written. *)
Theorem assign_close_failures (tid actor : string) (agents : list (string * Z))
    (t3 : datetime) (s s' : InMemoryStore) (e : exn) :
  (assign_ticket_flow tid agents t3 s = (Raise e, s') →
     s' = s ∧
     ((e = TicketError "ticket not found" ∧ tickets s !! tid = None) ∨
      (e = ValueError ∧ is_Some (tickets s !! tid) ∧ agents = []))) ∧
  (close_ticket tid actor t3 s = (Raise e, s') →
     s' = s ∧ e = TicketError "ticket not found" ∧ tickets s !! tid = None).
Proof.
  split.
  - rewrite assign_ticket_flow_run.
    destruct (tickets s !! tid) as [t |] eqn:Et.
    + destruct agents as [| a rest]; simpl; intros [= <- <-].
      split; [done |]. right. eauto.
    + intros [= <- <-]. split; [done |]. by left.
  - rewrite close_ticket_run.
    destruct (tickets s !! tid) as [t |] eqn:Et; intros [= <- <-]. done.
Qed.

(** [open_ticket] inverted: what a return and what a raise tell. *)
Lemma open_ticket_inv r ti d tg t1 t2 t3 s :
  (∀ t s', open_ticket r ti d tg t1 t2 t3 s = (Ok t, s') →
     fst (check_rate_limit r t1 s) = Ok tt ∧
     (∃ u, users s !! r = Some u ∧
           can_open_ticket u (Z.of_nat (open_count s r)) = (true, "allowed")) ∧
     t = opened_ticket r ti d tg t2 s ∧
     s' = opened_store r ti d tg t1 t2 t3 s) ∧
  (∀ e s', open_ticket r ti d tg t1 t2 t3 s = (Raise e, s') →
     tickets s' = tickets s ∧ audits s' = audits s).
Proof.
  rewrite open_ticket_run. cbv zeta.
  pose proof (check_rate_limit_frame r t1 s) as (_ & Ht & _ & Ha & _).
  destruct (fst (check_rate_limit r t1 s)) as [[] | e0];
    [| split; [intros t s' [=] | by intros e s' [= <- <-]]].
  destruct (users s !! r) as [u |] eqn:Eu;
    [| split; [intros t s' [=] | by intros e s' [= <- <-]]].
  fold (open_count s r).
  destruct (can_open_ticket u _) as [allowed reason] eqn:Ev. simpl.
  destruct allowed.
  - split; [| intros e s' [=]]. intros t s' [= <- <-].
    split; [done |]. split; [| done]. exists u. split; [done |].
    assert (reason = "allowed") as ->; [| done].
    unfold can_open_ticket in Ev.
    destruct (negb (active u)); [discriminate Ev |].
    destruct (String.eqb (role u) "guest"); [discriminate Ev |].
    destruct (MAX_OPEN_TICKETS <=? _); [discriminate Ev |]. congruence.
  - split; [intros t s' [=] | by intros e s' [= <- <-]].
Qed.

Lemma next_ticket_key_free s :
  store_ok s → tickets s !! format_id "ticket" (N.succ (id_counter s)) = None.
Proof.
  intros Hok. destruct (tickets s !! _) as [old |] eqn:Eold; [| done].
  destruct (Hok _ _ Eold) as (n & Heq & Hn).
  apply format_id_inj in Heq. lia.
Qed.

(** X3. When [open_ticket] succeeds, the limiter let the call pass and the
    requester is a known, active user who is no guest and had fewer than 5
    open tickets; the ticket returned is open, unassigned, carries the
    requester and the severity of its text, and is what the store now holds
    under the ticket's id, all other tickets being as before.  In a store
    whose keys all come from [next_id] that id was free: nothing is
    overwritten. *)
Theorem open_ticket_success (r ti d : string) (tg : list string)
    (t1 t2 t3 : datetime) (s s' : InMemoryStore) (t : Ticket) :
  open_ticket r ti d tg t1 t2 t3 s = (Ok t, s') →
  fst (check_rate_limit r t1 s) = Ok tt ∧
  (∃ u, users s !! r = Some u ∧ active u = true ∧ role u ≠ "guest") ∧
  (open_count s r < 5)%nat ∧
  (status t = "open" ∧ assigned_to t = None ∧ requester_id t = r ∧
   title t = ti ∧ description t = d ∧ tags t = tg ∧
   severity t = classify_severity ti d) ∧
  tickets s' = <[ticket_id t := t]> (tickets s) ∧
  tickets s' !! ticket_id t = Some t ∧
  (store_ok s → tickets s !! ticket_id t = None).
Proof.
  intros Hrun.
  destruct (open_ticket_inv r ti d tg t1 t2 t3 s) as [Hinv _].
  destruct (Hinv _ _ Hrun) as (Hpass & (u & Hu & Hv) & -> & ->).
  split; [done |].
  unfold can_open_ticket in Hv.
  destruct (active u) eqn:Ea; simpl in Hv; [| discriminate Hv].
  destruct (String.eqb (role u) "guest") eqn:Er; [discriminate Hv |].
  destruct (MAX_OPEN_TICKETS <=? _) eqn:En; [discriminate Hv |].
  apply String.eqb_neq in Er. apply Z.leb_gt in En.
  split; [by exists u |].
  split; [unfold MAX_OPEN_TICKETS in En; lia |].
  split; [done |]. simpl.
  split; [done |]. split; [apply lookup_insert_eq |].
  apply next_ticket_key_free.
Qed.

(** X4. Closing is not guarded against repetition: after a successful
    [close_ticket], closing the same ticket again succeeds, returns the
    same closed ticket and leaves the tickets as they were, but writes a
    second "ticket.close" event with a new id. *)
Theorem close_twice (tid actor actor' : string) (t3 t3' : datetime)
    (s s1 : InMemoryStore) (t : Ticket) :
  close_ticket tid actor t3 s = (Ok t, s1) →
  status t = "closed" ∧
  ∃ s2 e1 e2,
    close_ticket tid actor' t3' s1 = (Ok t, s2) ∧
    tickets s2 = tickets s1 ∧
    audits s2 = audits s ++ [e1; e2] ∧
    action e1 = "ticket.close" ∧ action e2 = "ticket.close" ∧
    actor_id e1 = actor ∧ actor_id e2 = actor' ∧
    audit_id e1 ≠ audit_id e2.
Proof.
  rewrite close_ticket_run.
  destruct (tickets s !! tid) as [t0 |] eqn:Et; intros [= <- <-].
  split; [done |].
  rewrite close_ticket_run. simpl. rewrite lookup_insert_eq.
  do 3 eexists. split; [reflexivity |]. simpl.
  split; [by rewrite insert_insert_eq |].
  split; [by rewrite <- app_assoc |]. simpl.
  do 4 (split; [done |]).
  intros Heq. apply format_id_inj in Heq. lia.
Qed.

(** X5. When [assign_ticket_flow] succeeds, the ticket was in the
    store and the agent chosen is the first least loaded of the list; the
    ticket now carries that agent, replacing any earlier assignee, and no
    other ticket has changed; the notice names the same agent and the
    ticket's id, and the new audit event has the agent as its actor. *)
Theorem assign_picks_least_loaded (tid : string) (agents : list (string * Z))
    (t3 : datetime) (s s' : InMemoryStore) (notice : list (string * string)) :
  assign_ticket_flow tid agents t3 s = (Ok notice, s') →
  ∃ t best,
    tickets s !! tid = Some t ∧
    first_least agents best ∧
    tickets s' = <[tid := set_assigned_to (Some (fst best)) t]> (tickets s) ∧
    dict_find notice "agent_id" = Some (fst best) ∧
    dict_find notice "ticket_id" = Some (ticket_id t) ∧
    ∃ ev, audits s' = audits s ++ [ev] ∧ actor_id ev = fst best.
Proof.
  rewrite assign_ticket_flow_run.
  destruct (tickets s !! tid) as [t |] eqn:Et; [| intros [=]].
  destruct agents as [| a rest]; simpl; intros [= <- <-].
  exists t, (min_from a rest). split; [done |].
  split; [apply min_from_first_least |].
  split; [done |]. split; [done |]. split; [done |]. eauto.
Qed.

End ServiceEdges.

(** ** Invariants of the store under the service *)

Section Counting.

Lemma filter_length_perm {A} (f : A → bool) (l l' : list A) :
  l ≡ₚ l' → length (List.filter f l) = length (List.filter f l').
Proof.
  induction 1 as [| x l l' _ IH | x y l | l l' l'' _ IH1 _ IH2]; simpl.
  - done.
  - destruct (f x); simpl; by rewrite IH.
  - destruct (f x), (f y); done.
  - by rewrite IH1.
Qed.

Lemma count_in_insert_fresh m k t uid :
  m !! k = None →
  count_in (<[k := t]> m) uid
  = ((if counts_for uid t then 1 else 0) + count_in m uid)%nat.
Proof.
  intros Hk. unfold count_in.
  rewrite (filter_length_perm _ _ (t :: map snd (map_to_list m))).
  - simpl. by destruct (counts_for uid t).
  - change (t :: map snd (map_to_list m))
      with (map snd ((k, t) :: map_to_list m)).
    apply Permutation_map. by apply map_to_list_insert.
Qed.

Lemma count_in_insert_replace m k old t uid :
  m !! k = Some old →
  (count_in (<[k := t]> m) uid + (if counts_for uid old then 1 else 0)
   = count_in m uid + (if counts_for uid t then 1 else 0))%nat.
Proof.
  intros Hk.
  assert (delete k m !! k = None) as Hd by apply lookup_delete_eq.
  rewrite <- (insert_delete_eq m k t).
  rewrite <- (insert_delete_id m k old Hk) at 2.
  rewrite !count_in_insert_fresh by done. lia.
Qed.

Lemma open_count_tickets s uid : open_count s uid = count_in (tickets s) uid.
Proof. reflexivity. Qed.

End Counting.

Section Invariants.
Context `{PyRuntime}.

(** One call: it touches neither users nor tokens; it either raises and
    leaves tickets, audit log and counter alone, or returns and appends
    one audit event numbered with the new, greater counter value. *)
Lemma run_call_shape c s :
  let s' := snd (run_call c s) in
  users s' = users s ∧ tokens s' = tokens s ∧
  ((∃ e, fst (run_call c s) = Raise e) ∧ audits s' = audits s ∧
   id_counter s' = id_counter s ∧ tickets s' = tickets s
   ∨
   (∃ v, fst (run_call c s) = Ok v) ∧
   ∃ ev, audits s' = audits s ++ [ev] ∧ action ev = call_action c ∧
         audit_id ev = format_id "audit" (id_counter s') ∧
         (id_counter s < id_counter s')%N).
Proof.
  rewrite run_call_run.
  destruct c as [r ti d tg t1 t2 t3 | tid agents t3 | tid actor t3].
  - rewrite open_ticket_run. cbv zeta.
    pose proof (check_rate_limit_frame r t1 s) as (Hu & Ht & Hk & Ha & Hc).
    destruct (fst (check_rate_limit r t1 s)); simpl.
    + destruct (users s !! r) as [u |]; simpl.
      * destruct (fst (can_open_ticket u _)); simpl.
        -- split; [done |]. split; [done |]. right. split; [eauto |].
           eexists. split; [done |]. simpl. split; [done |].
           split; [done | lia].
        -- split; [done |]. split; [done |]. left. eauto.
      * split; [done |]. split; [done |]. left. eauto.
    + split; [done |]. split; [done |]. left. eauto.
  - rewrite assign_ticket_flow_run.
    destruct (tickets s !! tid) as [ticket |]; simpl.
    + destruct (py_min_by_load agents) as [best |]; simpl.
      * split; [done |]. split; [done |]. right. split; [eauto |].
        eexists. split; [done |]. simpl. split; [done |]. split; [done | lia].
      * split; [done |]. split; [done |]. left. eauto.
    + split; [done |]. split; [done |]. left. eauto.
  - rewrite close_ticket_run.
    destruct (tickets s !! tid) as [ticket |]; simpl.
    + split; [done |]. split; [done |]. right. split; [eauto |].
      eexists. split; [done |]. simpl. split; [done |]. split; [done | lia].
    + split; [done |]. split; [done |]. left. eauto.
Qed.

(** X6. The audit log is only ever appended to, and users and tokens are
    never touched: after any sequence of service calls the log is the old
    log followed by one event per call that returned, and by none for the
    calls that raised. *)
Theorem audit_log_append_only (cs : list call) (s : InMemoryStore) :
  users (run_calls cs s) = users s ∧
  tokens (run_calls cs s) = tokens s ∧
  ∃ new, audits (run_calls cs s) = audits s ++ new ∧
         length new = successes cs s.
Proof.
  revert s. induction cs as [| c cs IH]; intros s.
  - simpl. split; [done |]. split; [done |]. exists []. by rewrite app_nil_r.
  - simpl.
    destruct (IH (snd (run_call c s))) as (Hu & Hk & new & Hnew & Hlen).
    destruct (run_call_shape c s) as (Hu1 & Hk1 & Hcase).
    split; [by rewrite Hu |]. split; [by rewrite Hk |].
    destruct Hcase as [([e He] & Ha & _) | ([v Hv] & ev & Ha & _)].
    + exists new. rewrite Hnew, Ha, He. done.
    + exists (ev :: new). rewrite Hnew, Ha, Hv, <- app_assoc. simpl.
      by rewrite Hlen.
Qed.

Lemma audit_ids_ok_step c s :
  audit_ids_ok s → audit_ids_ok (snd (run_call c s)).
Proof.
  intros [Hbound Hinc].
  destruct (run_call_shape c s) as (_ & _ & Hcase).
  destruct Hcase as [(_ & Ha & Hc & _) | (_ & ev & Ha & _ & Hid & Hlt)].
  - split.
    + intros i a. rewrite Ha, Hc. apply Hbound.
    + intros i j a b. rewrite Ha. apply Hinc.
  - assert (∀ i a, (audits s ++ [ev]) !! i = Some a →
              (audits s !! i = Some a ∧ (i < length (audits s))%nat) ∨
              (a = ev ∧ i = length (audits s))) as Hsplit.
    { intros i a Hl. apply lookup_app_Some in Hl as [Hl | [Hge Hl]].
      - left. split; [done | by apply lookup_lt_Some with a].
      - right. apply list_lookup_singleton_Some in Hl as [Hz ->].
        split; [done | lia]. }
    split.
    + intros i a. rewrite Ha. intros Hl.
      destruct (Hsplit _ _ Hl) as [[Hold _] | [-> _]].
      * destruct (Hbound _ _ Hold) as (n & Hn & Hle). exists n.
        split; [done | lia].
      * eexists. split; [exact Hid | lia].
    + intros i j a b Hij. rewrite Ha. intros Hi Hj.
      destruct (Hsplit _ _ Hi) as [[Hoi Hli] | [-> Hei]];
        destruct (Hsplit _ _ Hj) as [[Hoj Hlj] | [-> Hej]]; try lia.
      * by apply (Hinc i j).
      * destruct (Hbound _ _ Hoi) as (n & Hn & Hle).
        exists n, (id_counter (snd (run_call c s))).
        split; [done |]. split; [done | lia].
Qed.

(** X7. In every store reached from a seeded one by service calls, the
    ids of the audit events are "audit-" numbers issued in log order: each
    later event has a strictly greater number, so no two events share an
    id. *)
Theorem audit_ids_increase (cs : list call) (us : gmap string User) :
  audit_ids_ok (run_calls cs (seeded us)) ∧
  NoDup (audit_id <$> audits (run_calls cs (seeded us))).
Proof.
  assert (∀ s, audit_ids_ok s → audit_ids_ok (run_calls cs s)) as Hreach.
  { induction cs as [| c cs IH]; intros s Hs; [done |].
    simpl. by apply IH, audit_ids_ok_step. }
  assert (audit_ids_ok (run_calls cs (seeded us))) as Hok.
  { apply Hreach. split; [intros i a | intros i j a b _]; simpl;
      by rewrite lookup_nil. }
  split; [exact Hok |].
  destruct Hok as [_ Hinc].
  apply NoDup_alt. intros i j x Hi Hj.
  apply list_lookup_fmap_Some in Hi as (a & Hx & Ha).
  apply list_lookup_fmap_Some in Hj as (b & Hy & Hb).
  destruct (Nat.lt_trichotomy i j) as [Hlt | [-> | Hlt]]; [| done |].
  - destruct (Hinc _ _ _ _ Hlt Ha Hb) as (na & nb & Hna & Hnb & Hn).
    rewrite Hx in Hy. rewrite Hy, Hnb in Hna. apply format_id_inj in Hna. lia.
  - destruct (Hinc _ _ _ _ Hlt Hb Ha) as (na & nb & Hna & Hnb & Hn).
    rewrite Hx in Hy. rewrite <- Hy, Hnb in Hna. apply format_id_inj in Hna. lia.
Qed.

End Invariants.

Section Quota.
Context `{PyRuntime}.

Lemma counts_for_set_assigned_to uid a t :
  counts_for uid (set_assigned_to a t) = counts_for uid t.
Proof. reflexivity. Qed.

Lemma counts_for_closed uid t : counts_for uid (set_status "closed" t) = false.
Proof. unfold counts_for. simpl. apply andb_false_r. Qed.

Lemma quota_step c s :
  store_ok s →
  (∀ uid, (open_count s uid <= 5)%nat) →
  ∀ uid, (open_count (snd (run_call c s)) uid <= 5)%nat.
Proof.
  intros Hok Hq uid. specialize (Hq uid).
  rewrite open_count_tickets in *. rewrite run_call_run.
  destruct c as [r ti d tg t1 t2 t3 | tid agents t3 | tid actor t3].
  - destruct (open_ticket r ti d tg t1 t2 t3 s) as [[t | e] s'] eqn:Erun.
    + destruct (open_ticket_inv r ti d tg t1 t2 t3 s) as [Hinv _].
      destruct (Hinv _ _ Erun) as (_ & (u & _ & Hv) & -> & ->).
      simpl. rewrite count_in_insert_fresh by (by apply next_ticket_key_free).
      unfold counts_for. simpl.
      destruct (String.eqb r uid) eqn:Eru; simpl; [| done].
      apply String.eqb_eq in Eru as <-.
      unfold can_open_ticket in Hv.
      destruct (negb (active u)); [discriminate Hv |].
      destruct (String.eqb (role u) "guest"); [discriminate Hv |].
      destruct (MAX_OPEN_TICKETS <=? _) eqn:En; [discriminate Hv |].
      apply Z.leb_gt in En. rewrite open_count_tickets in En.
      unfold MAX_OPEN_TICKETS in En. lia.
    + destruct (open_ticket_inv r ti d tg t1 t2 t3 s) as [_ Hinv].
      destruct (Hinv _ _ Erun) as [Ht _]. simpl. by rewrite Ht.
  - rewrite assign_ticket_flow_run.
    destruct (tickets s !! tid) as [ticket |] eqn:Et; [| done].
    destruct (py_min_by_load agents) as [best |]; [| done]. simpl.
    pose proof (count_in_insert_replace _ _ _
                  (set_assigned_to (Some (fst best)) ticket) uid Et) as Hc.
    rewrite counts_for_set_assigned_to in Hc. lia.
  - rewrite close_ticket_run.
    destruct (tickets s !! tid) as [ticket |] eqn:Et; [| done]. simpl.
    pose proof (count_in_insert_replace _ _ _
                  (set_status "closed" ticket) uid Et) as Hc.
    rewrite counts_for_closed in Hc. lia.
Qed.

(** X8. The limit on open tickets holds in the store, not only at the
    gate: in every store reached from a seeded one by service calls, no
    user has more than 5 open tickets; and while a user has 5 of them,
    [open_ticket] for that user raises. *)
Theorem open_tickets_bounded (cs : list call) (us : gmap string User)
    (uid : string) :
  let s := run_calls cs (seeded us) in
  (open_count s uid <= 5)%nat ∧
  (open_count s uid = 5%nat →
   ∀ ti d tg t1 t2 t3, ∃ e, fst (open_ticket uid ti d tg t1 t2 t3 s) = Raise e).
Proof.
  intros s.
  assert (∀ s0, store_ok s0 → (∀ v, (open_count s0 v <= 5)%nat) →
                ∀ v, (open_count (run_calls cs s0) v <= 5)%nat) as Hreach.
  { induction cs as [| c cs IH]; intros s0 Hok Hq; [done |].
    simpl. apply IH; [by apply store_ok_step | by apply quota_step]. }
  split.
  - apply Hreach; [apply store_ok_seeded |].
    intros v. unfold open_count, get_open_tickets_for_user. simpl.
    rewrite map_to_list_empty. simpl. lia.
  - intros Hfull ti d tg t1 t2 t3.
    destruct (open_ticket uid ti d tg t1 t2 t3 s) as [[t | e] s'] eqn:Erun;
      [| by exists e].
    destruct (open_ticket_inv uid ti d tg t1 t2 t3 s) as [Hinv _].
    destruct (Hinv _ _ Erun) as (_ & (u & _ & Hv) & _).
    unfold can_open_ticket in Hv.
    destruct (negb (active u)); [discriminate Hv |].
    destruct (String.eqb (role u) "guest"); [discriminate Hv |].
    destruct (MAX_OPEN_TICKETS <=? _) eqn:En; [discriminate Hv |].
    apply Z.leb_gt in En. unfold MAX_OPEN_TICKETS in En. lia.
Qed.

Lemma keys_ok_step c s : keys_ok s → keys_ok (snd (run_call c s)).
Proof.
  intros Hk. rewrite run_call_run.
  destruct c as [r ti d tg t1 t2 t3 | tid agents t3 | tid actor t3].
  - destruct (open_ticket r ti d tg t1 t2 t3 s) as [[t | e] s'] eqn:Erun.
    + destruct (open_ticket_inv r ti d tg t1 t2 t3 s) as [Hinv _].
      destruct (Hinv _ _ Erun) as (_ & _ & -> & ->).
      intros k t0. simpl. rewrite lookup_insert. case_decide as Hd.
      * by intros [= <-].
      * apply Hk.
    + destruct (open_ticket_inv r ti d tg t1 t2 t3 s) as [_ Hinv].
      destruct (Hinv _ _ Erun) as [Ht _].
      intros k t0. simpl. rewrite Ht. apply Hk.
  - rewrite assign_ticket_flow_run.
    destruct (tickets s !! tid) as [ticket |] eqn:Et; [| done].
    destruct (py_min_by_load agents) as [best |]; [| done].
    intros k t0. simpl. rewrite lookup_insert. case_decide as Hd.
    + intros [= <-]. subst k. simpl. by apply Hk.
    + apply Hk.
  - rewrite close_ticket_run.
    destruct (tickets s !! tid) as [ticket |] eqn:Et; [| done].
    intros k t0. simpl. rewrite lookup_insert. case_decide as Hd.
    + intros [= <-]. subst k. simpl. by apply Hk.
    + apply Hk.
Qed.

Lemma tickets_kept c s k :
  is_Some (tickets s !! k) → is_Some (tickets (snd (run_call c s)) !! k).
Proof.
  intros Hk. rewrite run_call_run.
  destruct c as [r ti d tg t1 t2 t3 | tid agents t3 | tid actor t3].
  - destruct (open_ticket r ti d tg t1 t2 t3 s) as [[t | e] s'] eqn:Erun.
    + destruct (open_ticket_inv r ti d tg t1 t2 t3 s) as [Hinv _].
      destruct (Hinv _ _ Erun) as (_ & _ & -> & ->).
      simpl. rewrite lookup_insert. by case_decide.
    + destruct (open_ticket_inv r ti d tg t1 t2 t3 s) as [_ Hinv].
      destruct (Hinv _ _ Erun) as [Ht _]. simpl. by rewrite Ht.
  - rewrite assign_ticket_flow_run.
    destruct (tickets s !! tid) as [ticket |] eqn:Et; [| done].
    destruct (py_min_by_load agents) as [best |]; [| done].
    simpl. rewrite lookup_insert. by case_decide.
  - rewrite close_ticket_run.
    destruct (tickets s !! tid) as [ticket |] eqn:Et; [| done].
    simpl. rewrite lookup_insert. by case_decide.
Qed.

Lemma audit_refs_ok_step c s :
  keys_ok s → audit_refs_ok s → audit_refs_ok (snd (run_call c s)).
Proof.
  intros Hk Hrefs.
  assert (∀ ev, ev ∈ audits s →
            ∃ tid, dict_find (meta ev) "ticket_id" = Some tid ∧
                   is_Some (tickets (snd (run_call c s)) !! tid)) as Hold.
  { intros ev Hev. destruct (Hrefs ev Hev) as (tid & Hm & Ht).
    exists tid. split; [done | by apply tickets_kept]. }
  revert Hold. rewrite run_call_run.
  destruct c as [r ti d tg t1 t2 t3 | tid agents t3 | tid actor t3].
  - rewrite open_ticket_run. cbv zeta.
    pose proof (check_rate_limit_frame r t1 s) as (_ & Ht & _ & Ha & _).
    destruct (fst (check_rate_limit r t1 s)); simpl;
      [| intros Hold ev; rewrite Ha; apply Hold].
    destruct (users s !! r) as [u |]; simpl;
      [| intros Hold ev; rewrite Ha; apply Hold].
    destruct (fst (can_open_ticket u _)); simpl;
      [| intros Hold ev; rewrite Ha; apply Hold].
    intros Hold ev Hev. apply elem_of_app in Hev as [Hev | Hev]; [by apply Hold |].
    apply list_elem_of_singleton in Hev as ->. simpl.
    eexists. split; [done |]. by rewrite lookup_insert_eq.
  - rewrite assign_ticket_flow_run.
    destruct (tickets s !! tid) as [ticket |] eqn:Et; [| intros Hold; exact Hold].
    destruct (py_min_by_load agents) as [best |]; [| intros Hold; exact Hold].
    simpl. intros Hold ev Hev.
    apply elem_of_app in Hev as [Hev | Hev]; [by apply Hold |].
    apply list_elem_of_singleton in Hev as ->. simpl.
    eexists. split; [done |]. rewrite (Hk _ _ Et). by rewrite lookup_insert_eq.
  - rewrite close_ticket_run.
    destruct (tickets s !! tid) as [ticket |] eqn:Et; [| intros Hold; exact Hold].
    simpl. intros Hold ev Hev.
    apply elem_of_app in Hev as [Hev | Hev]; [by apply Hold |].
    apply list_elem_of_singleton in Hev as ->. simpl.
    eexists. split; [done |]. rewrite (Hk _ _ Et). by rewrite lookup_insert_eq.
Qed.

(** X9. In every store reached from a seeded one by service calls, each
    ticket sits under its own id, and each audit event names under
    "ticket_id" a ticket that is in the store: tickets are never removed
    and the log never points to a ticket that is not there. *)
Theorem audit_refers_to_tickets (cs : list call) (us : gmap string User) :
  keys_ok (run_calls cs (seeded us)) ∧
  audit_refs_ok (run_calls cs (seeded us)).
Proof.
  assert (∀ s, keys_ok s → audit_refs_ok s →
               keys_ok (run_calls cs s) ∧ audit_refs_ok (run_calls cs s))
    as Hreach.
  { induction cs as [| c cs IH]; intros s Hk Hr; [done |].
    simpl. apply IH; [by apply keys_ok_step | by apply audit_refs_ok_step]. }
  apply Hreach.
  - intros k t. simpl. by rewrite lookup_empty.
  - intros ev Hev. simpl in Hev. by apply elem_of_nil in Hev.
Qed.

End Quota.

(** ** More on the rate limiter *)

Section RateLimiterEdges.

(** X10. A check for one user never touches another user's window.  When
    it passes, the user's window holds a count of at most 30; when it
    raises, the window is the old one with its count raised by one, above
    30: no count beyond the limit is ever stored by a passing call. *)
Theorem check_rate_limit_bound (uid : string) (now : datetime)
    (s : InMemoryStore) :
  let out := check_rate_limit uid now s in
  (∀ v, v ≠ uid → rate_limits (snd out) !! v = rate_limits s !! v) ∧
  (fst out = Ok tt →
     ∃ w', rate_limits (snd out) !! uid = Some w' ∧ count w' <= 30) ∧
  (∀ e, fst out = Raise e →
     ∃ w, rate_limits s !! uid = Some w ∧
          rate_limits (snd out) !! uid
          = Some (mkRateWindow (window_start w) (count w + 1)) ∧
          30 < count w + 1).
Proof.
  unfold check_rate_limit.
  destruct (rate_limits s !! uid) as [w |] eqn:E; simpl.
  - destruct (60 * MICROS_PER_SECOND <=? _); simpl.
    + split; [intros v Hv; by rewrite lookup_insert_ne |].
      split; [| intros e [=]].
      intros _. eexists. rewrite lookup_insert_eq. split; [done |]. simpl. lia.
    + unfold RATE_LIMIT_PER_MINUTE.
      destruct (30 <? count w + 1) eqn:Hc; simpl.
      * split; [intros v Hv; by rewrite lookup_insert_ne |].
        split; [intros [=] |]. intros e _. exists w.
        rewrite lookup_insert_eq. apply Z.ltb_lt in Hc. done.
      * split; [intros v Hv; by rewrite lookup_insert_ne |].
        split; [| intros e [=]].
        intros _. eexists. rewrite lookup_insert_eq. split; [done |].
        apply Z.ltb_ge in Hc. simpl. lia.
  - split; [intros v Hv; by rewrite lookup_insert_ne |].
    split; [| intros e [=]].
    intros _. eexists. rewrite lookup_insert_eq. split; [done |]. simpl. lia.
Qed.

Lemma check_rate_limit_bound_witness :
  ∃ w', rate_limits (snd (check_rate_limit "u1" 5 new_store)) !! "u1" = Some w'
        ∧ count w' <= 30.
Proof.
  apply (check_rate_limit_bound "u1" 5 new_store). reflexivity.
Defined.

(** X11. The window is measured from the whole second in which it was
    opened.  After a request at [first], between the epoch and
    2514-05-30T01:53:04Z (2^34 seconds), opened a window, a request 60
    seconds or more later starts a new window with count 1, and a request
    less than 59 seconds later is counted in the old one; in between, it
    depends on the fraction of a second at which the window was opened.
    (After that date the float of [timestamp()] no longer holds the
    microseconds, see [window_after_2514].) *)
Theorem window_length (uid : string) (first later : datetime)
    (s : InMemoryStore) :
  rate_limits s !! uid = None →
  0 <= first < 2 ^ 34 * MICROS_PER_SECOND →
  let s1 := snd (check_rate_limit uid first s) in
  (60 * MICROS_PER_SECOND <= later - first →
     check_rate_limit uid later s1
     = (Ok tt, with_rate_limits
                 <[uid := mkRateWindow (timestamp_int later) 1]> s1)) ∧
  (later - first < 59 * MICROS_PER_SECOND →
     check_rate_limit uid later s1
     = (Ok tt, with_rate_limits
                 <[uid := mkRateWindow (timestamp_int first) 2]> s1)).
Proof.
  intros E Hfirst s1.
  pose proof (window_start_floor first Hfirst) as Hfloor.
  assert (rate_limits s1 !! uid = Some (mkRateWindow (timestamp_int first) 1))
    as E1.
  { unfold s1. rewrite (check_fresh _ _ _ E). simpl. apply lookup_insert_eq. }
  split; intros Hd.
  - apply (check_rollover _ _ _ _ E1). simpl. lia.
  - rewrite (check_within _ _ _ _ E1); [done |]. simpl.
    unfold MICROS_PER_SECOND in *. lia.
Qed.

Lemma window_length_witness :
  fst (check_rate_limit "u1" 60999999
         (snd (check_rate_limit "u1" 999999 new_store))) = Ok tt ∧
  rate_limits (snd (check_rate_limit "u1" 60999999
                      (snd (check_rate_limit "u1" 999999 new_store)))) !! "u1"
  = Some (mkRateWindow 60 1).
Proof.
  destruct (window_length "u1" 999999 60999999 new_store) as [Hroll _];
    [reflexivity | vm_compute; split; [discriminate | reflexivity] |].
  rewrite Hroll by (vm_compute; discriminate). split; reflexivity.
Defined.

(** Late instants: at 3000-01-01T00:00:00.999999Z the float of
    [timestamp()] is the next whole second, the window starts there, and a
    request 60 seconds after the first is still counted in it. *)
Remark window_after_2514 :
  let first := 32503680000999999 in
  timestamp_int first = 32503680001 ∧
  rate_limits (snd (check_rate_limit "u1" (first + 60 * MICROS_PER_SECOND)
                      (snd (check_rate_limit "u1" first new_store)))) !! "u1"
  = Some (mkRateWindow 32503680001 2).
Proof. vm_compute. split; reflexivity. Qed.

End RateLimiterEdges.

(** ** Reports and notices *)

Section Notices.
Context `{PyRuntime}.

Lemma notices_loop_report tickets now clock : ∀ tick report,
  notices_loop tickets now clock tick (map warning_of_entry report)
  = match sla_loop tickets now clock tick report with
    | Ok lines => Ok (map warning_of_entry lines)
    | Raise e => Raise e
    end.
Proof.
  induction tickets as [| t rest IH]; intros tick report; [done |].
  simpl. destruct (negb (String.eqb (status t) "open")); [apply IH |].
  destruct (hours_since (created_at t) now (clock tick)) as [age | e];
    [| done].
  destruct (sla_reached age); [| apply IH].
  rewrite <- IH. by rewrite map_app.
Qed.

(** The same holds without a given [now], both functions reading the
    same clock. *)
Lemma notices_match_report_at tickets now clock :
  build_sla_notifications_at tickets now clock
  = match build_sla_report_at tickets now clock with
    | Ok lines => Ok (map warning_of_entry lines)
    | Raise e => Raise e
    end.
Proof. apply (notices_loop_report tickets now clock 0%nat []). Qed.

(** X12. [build_sla_notifications] and [build_sla_report] agree: on the
    same tickets at the same instant both raise or both return, and the
    notices are the report lines in the same order, each with the same
    ticket id, hours and severity, under the kind "sla_warning". *)
Theorem notices_match_report (tickets : list Ticket) (now : datetime) :
  build_sla_notifications tickets now
  = match build_sla_report tickets now with
    | Ok lines => Ok (map warning_of_entry lines)
    | Raise e => Raise e
    end.
Proof. apply (notices_loop_report tickets (Some now) (λ _, now) 0%nat []). Qed.





End Notices.

(** ** Tokens and roles *)

Section Auth.
Context `{PyRuntime}.

(** X14. The life of a token, where the runtime reads back the two
    stamps involved.  [create_token] stores a record for the user under
    the new token, whoever the user is, and changes nothing else.  The
    token then authenticates an active user of that id up to and including
    60 minutes after its creation, and is refused as "token expired" at
    any later instant; for a user who is unknown or not active it is
    refused as "inactive user". *)
Theorem token_lifetime (uid : string) (now : datetime) (s : InMemoryStore) :
  let expiry := now + TOKEN_TTL_MINUTES * MICROS_PER_MINUTE in
  fromisoformat (isoformat now) = Some now →
  fromisoformat (isoformat expiry) = Some expiry →
  ∃ record s1,
    create_token uid now s = (Done record, s1) ∧
    token_user_id record = uid ∧
    tokens s1 = <[token record := record]> (tokens s) ∧
    users s1 = users s ∧ tickets s1 = tickets s ∧ audits s1 = audits s ∧
    rate_limits s1 = rate_limits s ∧ id_counter s1 = id_counter s ∧
    ∀ current,
      (expiry < current →
         authenticate (token record) current s1
         = Failed (AuthError "token expired")) ∧
      (current <= expiry → ∀ u, users s !! uid = Some u → active u = true →
         authenticate (token record) current s1 = Done u) ∧
      (current <= expiry → ∀ u, users s !! uid = Some u → active u = false →
         authenticate (token record) current s1
         = Failed (AuthError "inactive user")) ∧
      (current <= expiry → users s !! uid = None →
         authenticate (token record) current s1
         = Failed (AuthError "inactive user")).
Proof.
  intros expiry Hnow Hexp.
  unfold create_token, add_minutes, now_iso. rewrite Hnow. simpl.
  do 2 eexists. split; [reflexivity |]. simpl.
  do 7 (split; [done |]).
  intros current. unfold authenticate. simpl. rewrite lookup_insert_eq. simpl.
  fold expiry. rewrite Hexp.
  split; [intros Hlt; by apply Z.ltb_lt in Hlt as -> |].
  split; [| split]; intros Hle.
  - intros u Hu Ha. apply Z.ltb_ge in Hle as ->. by rewrite Hu, Ha.
  - intros u Hu Ha. apply Z.ltb_ge in Hle as ->. by rewrite Hu, Ha.
  - intros Hu. apply Z.ltb_ge in Hle as ->. by rewrite Hu.
Qed.

(** X15. [authenticate] never lets through an expired token or a user
    who is not active: when it returns a user, the token is in the store,
    its expiry is not before the current instant, and the user is the
    active user of the store the token belongs to.  Expiry is checked
    before the user: an expired token is reported as such whatever the
    state of its user. *)
Theorem authenticate_sound (tok : string) (current : datetime)
    (s : InMemoryStore) :
  (∀ u, authenticate tok current s = Done u →
     active u = true ∧
     ∃ record expiry,
       tokens s !! tok = Some record ∧
       users s !! token_user_id record = Some u ∧
       fromisoformat (expires_at record) = Some expiry ∧
       current <= expiry) ∧
  (tokens s !! tok = None →
     authenticate tok current s = Failed (AuthError "token not found")) ∧
  (∀ record expiry, tokens s !! tok = Some record →
     fromisoformat (expires_at record) = Some expiry → expiry < current →
     authenticate tok current s = Failed (AuthError "token expired")).
Proof.
  unfold authenticate. split; [| split].
  - intros u.
    destruct (tokens s !! tok) as [record |] eqn:Et; [| intros [=]].
    destruct (fromisoformat (expires_at record)) as [expiry |] eqn:Ee;
      [| by destruct (iso_zoneless (expires_at record))].
    destruct (expiry <? current) eqn:Hlt; [intros [=] |].
    destruct (users s !! token_user_id record) as [user |] eqn:Eu;
      [| intros [=]].
    destruct (active user) eqn:Ea; simpl; intros [= <-].
    apply Z.ltb_ge in Hlt. split; [done |]. by exists record, expiry.
  - by intros ->.
  - intros record expiry -> -> Hlt. by apply Z.ltb_lt in Hlt as ->.
Qed.

End Auth.

Section Roles.

(** X16. [require_role] passes exactly when the user's role is one of
    the four configured roles and is in the list of allowed roles.  A role
    outside the configured four is refused as "unknown role" even if the
    caller allows it; a configured role that is not allowed is refused as
    "role not permitted". *)
Theorem require_role_passes (user : User) (allowed : list string) :
  ALLOWED_ROLES = ["agent"; "admin"; "viewer"; "guest"] ∧
  (require_role user allowed = Done tt ↔
   role user ∈ ALLOWED_ROLES ∧ role user ∈ allowed) ∧
  (role user ∉ ALLOWED_ROLES →
   require_role user allowed = Failed (AuthorizationError "unknown role")) ∧
  (role user ∈ ALLOWED_ROLES → role user ∉ allowed →
   require_role user allowed = Failed (AuthorizationError "role not permitted")).
Proof.
  split; [reflexivity |]. unfold require_role.
  destruct (bool_decide (role user ∈ ALLOWED_ROLES)) eqn:Hk; simpl.
  - apply bool_decide_eq_true in Hk.
    destruct (bool_decide (role user ∈ allowed)) eqn:Ha; simpl.
    + apply bool_decide_eq_true in Ha. split; [done |]. split; [done |].
      by intros _ Hn.
    + apply bool_decide_eq_false in Ha. split; [| split; [done |]; done].
      split; [intros [=] | by intros [_ ?]].
  - apply bool_decide_eq_false in Hk.
    split; [split; [intros [=] | by intros [? _]] |]. split; [done |].
    by intros Hn.
Qed.

(** X17. The label [classify_severity] gives is always one of
    "critical", "high", "medium", "low", and each of these has a weight in
    [SEVERITY_WEIGHTS]: for a ticket opened by the service the priority
    weight is the configured one, between 1 and 5, never the default taken
    for a severity that is not in the table. *)
Theorem classified_severity_has_weight (title description : string) :
  classify_severity title description ∈ ["critical"; "high"; "medium"; "low"] ∧
  ∃ w, dict_find SEVERITY_WEIGHTS (classify_severity title description) = Some w
       ∧ priority_weight (classify_severity title description) = w
       ∧ 1 <= w <= 5.
Proof.
  unfold classify_severity, KEYWORDS, classify_in.
  repeat (match goal with
          | |- context [if existsb ?f ?l then _ else _] => destruct (existsb f l)
          end);
    (split; [set_solver |]; eexists; split; [reflexivity |];
     split; [reflexivity |]; lia).
Qed.

(** X18. The number of an identifier survives its formatting: read back
    from the text after the last dash it is the counter value, whatever the
    prefix (dashes included) and however many digits; the number takes at
    least four characters, and exactly four while the counter is below
    10000. *)
Theorem format_id_reads_back (prefix : string) (n : N) :
  id_number (format_id prefix n) = Some n ∧
  PyStr.parse_decimal (PyStr.format_04d n) = Some n ∧
  (4 <= String.length (PyStr.format_04d n))%nat ∧
  ((n < 10000)%N → String.length (PyStr.format_04d n) = 4%nat).
Proof.
  split; [apply id_number_format_id |].
  split.
  { destruct (format_04d_digits n) as (d & Hd & Hn).
    unfold PyStr.parse_decimal. by rewrite Hd, NilEmpty.usu, Hn. }
  assert (∀ k c s, String.length (PyStr.replicate_char k c +:+ s)
                   = (k + String.length s)%nat) as Hlen.
  { intros k c s. induction k as [| k IH]; [done |].
    simpl. by rewrite IH. }
  unfold PyStr.format_04d. rewrite Hlen. split; [lia |].
  intros Hn.
  assert (forallb (λ k, (String.length (PyStr.decimal (N.of_nat k)) <=? 4)%nat)
                  (seq 0 (N.to_nat 10000)) = true) as Hall
    by (vm_compute; reflexivity).
  rewrite forallb_forall in Hall.
  specialize (Hall (N.to_nat n)). rewrite N2Nat.id in Hall.
  assert (In (N.to_nat n) (seq 0 (N.to_nat 10000))) as Hin
    by (apply in_seq; lia).
  apply Hall, Nat.leb_le in Hin. lia.
Qed.

Lemma format_id_reads_back_witness :
  String.length (PyStr.format_04d 42) = 4%nat.
Proof. apply (format_id_reads_back "ticket" 42). reflexivity. Defined.

End Roles.

(** ** The further properties on concrete runs *)

Section MoreRuns.

Import Examples.
#[local] Existing Instance runtime.

Lemma assign_close_failures_witness :
  snd (assign_ticket_flow "ticket-0009" [("a1", 1)] 0 store0) = store0 ∧
  snd (close_ticket "ticket-0009" "u1" 0 store0) = store0.
Proof.
  destruct (assign_close_failures "ticket-0009" "u1" [("a1", 1)] 0 store0
              (snd (assign_ticket_flow "ticket-0009" [("a1", 1)] 0 store0))
              (TicketError "ticket not found")) as [Hassign _].
  destruct (assign_close_failures "ticket-0009" "u1" [("a1", 1)] 0 store0
              (snd (close_ticket "ticket-0009" "u1" 0 store0))
              (TicketError "ticket not found")) as [_ Hclose].
  split.
  - apply Hassign. vm_compute. reflexivity.
  - apply Hclose. vm_compute. reflexivity.
Defined.

Lemma open_ticket_success_witness :
  let out := open_ticket "u1" "Outage in the east" "" ["net"] 0 0 0 store0 in
  ∃ t, fst out = Ok t ∧ status t = "open" ∧ severity t = "critical" ∧
       tickets (snd out) !! ticket_id t = Some t.
Proof.
  intros out.
  destruct (open_ticket_success "u1" "Outage in the east" "" ["net"] 0 0 0
              store0 (snd out)
              (opened_ticket "u1" "Outage in the east" "" ["net"] 0 store0))
    as (_ & _ & _ & (Hst & _ & _ & _ & _ & _ & Hsev) & _ & Hstored & _).
  - vm_compute. reflexivity.
  - eexists. split; [vm_compute; reflexivity |].
    split; [exact Hst |]. split; [exact Hsev | exact Hstored].
Defined.

Lemma close_twice_witness :
  ∃ s2 t, close_ticket "ticket-0001" "u1" 9 store_closed = (Ok t, s2) ∧
          tickets s2 = tickets store_closed ∧
          length (audits s2) = 3%nat.
Proof.
  pose (s1 := snd (run_call (Open "u1" "slow response" "" [] 0 0 0) store0)).
  destruct (close_twice "ticket-0001" "u1" "u1" 0 9 s1 store_closed
              (mkTicket "ticket-0001" "slow response" "" "medium" "closed"
                        "u1" "0" None []))
    as (_ & s2 & e1 & e2 & Hrun & Ht & Ha & _).
  - vm_compute. reflexivity.
  - exists s2. eexists. split; [exact Hrun |]. split; [exact Ht |].
    rewrite Ha. reflexivity.
Defined.

Lemma open_tickets_bounded_witness :
  ∃ e, fst (open_ticket "u1" "one more" "" [] 0 0 0
              (run_calls (replicate 5 (Open "u1" "printer" "paper jam" [] 0 0 0))
                         (seeded {[ "u1" := alice ]}))) = Raise e.
Proof.
  apply (open_tickets_bounded
           (replicate 5 (Open "u1" "printer" "paper jam" [] 0 0 0))
           {[ "u1" := alice ]} "u1").
  vm_compute. reflexivity.
Defined.


Lemma token_lifetime_witness :
  ∃ record s1,
    create_token "u1" 0 store0 = (Done record, s1) ∧
    authenticate (token record) (60 * MICROS_PER_MINUTE) s1 = Done alice ∧
    authenticate (token record) (60 * MICROS_PER_MINUTE + 1) s1
    = Failed (AuthError "token expired").
Proof.
  destruct (token_lifetime "u1" 0 store0)
    as (record & s1 & Hrun & _ & _ & _ & _ & _ & _ & _ & Hauth);
    [vm_compute; reflexivity | vm_compute; reflexivity |].
  exists record, s1. split; [exact Hrun |]. split.
  - destruct (Hauth (60 * MICROS_PER_MINUTE)) as (_ & Hok & _).
    apply Hok; [vm_compute; discriminate | reflexivity | reflexivity].
  - destruct (Hauth (60 * MICROS_PER_MINUTE + 1)) as (Hexp & _).
    apply Hexp. vm_compute. reflexivity.
Defined.

Lemma authenticate_sound_witness :
  authenticate "tok_nobody" 0 store0 = Failed (AuthError "token not found").
Proof.
  apply (authenticate_sound "tok_nobody" 0 store0). reflexivity.
Defined.

Lemma require_role_passes_witness :
  require_role (mkUser "u9" "r@example.org" "root" true) ["root"; "admin"]
  = Failed (AuthorizationError "unknown role") ∧
  require_role alice ["admin"]
  = Failed (AuthorizationError "role not permitted").
Proof.
  split.
  - destruct (require_role_passes (mkUser "u9" "r@example.org" "root" true)
                ["root"; "admin"]) as (_ & _ & Hunknown & _).
    apply Hunknown. apply (bool_decide_unpack _). vm_compute. exact I.
  - destruct (require_role_passes alice ["admin"]) as (_ & _ & _ & Hdenied).
    apply Hdenied; apply (bool_decide_unpack _); vm_compute; exact I.
Defined.

Lemma assign_picks_least_loaded_witness :
  ∃ t, tickets (snd (assign_ticket_flow "ticket-0001"
                       [("a1", 3); ("a2", 1); ("a3", 5)] 0 store_closed))
         !! "ticket-0001" = Some t ∧
       assigned_to t = Some "a2".
Proof.
  destruct (assign_picks_least_loaded "ticket-0001"
              [("a1", 3); ("a2", 1); ("a3", 5)] 0 store_closed
              (snd (assign_ticket_flow "ticket-0001"
                      [("a1", 3); ("a2", 1); ("a3", 5)] 0 store_closed))
              [ ("kind", "assignment"); ("ticket_id", "ticket-0001");
                ("agent_id", "a2"); ("severity", "medium") ])
    as (t & best & Ht & _ & Hs' & Hagent & _).
  - vm_compute. reflexivity.
  - eexists. rewrite Hs', lookup_insert_eq. split; [reflexivity |].
    simpl. injection Hagent as <-. reflexivity.
Defined.

End MoreRuns.

(** ** Ingest pipeline: rows and batches *)

Section Batches.
Variables (BATCH_SIZE : Z).

Lemma batches_loop_map {A} (rows : list A) indices : ∀ batches,
  batches_loop BATCH_SIZE rows indices batches
  = batches ++ map (λ i, py_slice rows i (i + BATCH_SIZE)) indices.
Proof.
  induction indices as [| i rest IH]; intros batches; simpl.
  - by rewrite app_nil_r.
  - by rewrite IH, <- app_assoc.
Qed.

Lemma chunks_concat {A} (rows : list A) (b : nat) : ∀ m,
  concat (map (λ k, take b (drop (k * b) rows)) (seq 0 m))
  = take (m * b) rows.
Proof.
  induction m as [| m IH]; [done |].
  rewrite seq_S, map_app, concat_app, IH. simpl. rewrite app_nil_r.
  rewrite take_take_drop. f_equal. lia.
Qed.

Lemma ceil_div_bounds (n b : Z) :
  0 < b → 0 <= n →
  b * ((n + b - 1) / b - 1) < n <= b * ((n + b - 1) / b).
Proof.
  intros Hb Hn.
  pose proof (Z.div_mod (n + b - 1) b ltac:(lia)) as Hdm.
  pose proof (Z.mod_pos_bound (n + b - 1) b Hb) as Hm. lia.
Qed.

(** X19. With a positive [BATCH_SIZE], [build_batches] cuts the rows
    into consecutive batches and loses nothing: the batches joined are the
    rows; no batch is empty or longer than [BATCH_SIZE]; every batch but
    the last has exactly [BATCH_SIZE] rows; and there are as many batches
    as the length divided by [BATCH_SIZE], rounded up. *)
Theorem build_batches_partition {A} (rows : list A) :
  0 < BATCH_SIZE →
  ∃ batches,
    build_batches BATCH_SIZE rows = Some batches ∧
    concat batches = rows ∧
    Z.of_nat (length batches)
    = (Z.of_nat (length rows) + BATCH_SIZE - 1) / BATCH_SIZE ∧
    (∀ i batch, batches !! i = Some batch →
       0 < Z.of_nat (length batch) <= BATCH_SIZE ∧
       ((S i < length batches)%nat → Z.of_nat (length batch) = BATCH_SIZE)).
Proof.
  intros Hb.
  set (n := Z.of_nat (length rows)).
  set (b := Z.to_nat BATCH_SIZE).
  set (m := Z.to_nat ((n + BATCH_SIZE - 1) / BATCH_SIZE)).
  pose proof (ceil_div_bounds n BATCH_SIZE Hb ltac:(lia)) as Hceil.
  assert (0 <= (n + BATCH_SIZE - 1) / BATCH_SIZE) as Hm0
    by (apply Z.div_pos; lia).
  assert (build_batches BATCH_SIZE rows
          = Some (map (λ k, take b (drop (k * b) rows)) (seq 0 m))) as Hrun.
  { unfold build_batches, py_range0. fold n.
    assert ((BATCH_SIZE =? 0) = false) as -> by (apply Z.eqb_neq; lia).
    assert ((BATCH_SIZE <? 0) = false) as -> by (apply Z.ltb_ge; lia).
    simpl. rewrite batches_loop_map. simpl. f_equal.
    rewrite map_map. apply map_ext. intros k. unfold py_slice.
    f_equal; [f_equal; lia |]. f_equal. lia. }
  eexists. split; [exact Hrun |].
  split.
  { rewrite chunks_concat. apply firstn_all2. unfold m, b. nia. }
  split.
  { rewrite length_map, length_seq. unfold m. lia. }
  intros i batch Hi. rewrite length_map, length_seq.
  apply list_lookup_fmap_Some in Hi as (k & -> & Hk).
  apply lookup_seq in Hk as [-> Him]. simpl in *.
  rewrite length_take, length_drop.
  assert (Z.of_nat m = (n + BATCH_SIZE - 1) / BATCH_SIZE) as Hm
    by (unfold m; lia).
  assert (Z.of_nat b = BATCH_SIZE) as Hbz by (unfold b; lia).
  split; [nia |]. intros Hlast. nia.
Qed.

(** X20. A [BATCH_SIZE] that is not positive does not batch: zero makes
    [build_batches] raise (the [ValueError] of [range]), and a negative
    size makes it return no batch at all, whatever the rows. *)
Theorem build_batches_bad_size {A} (rows : list A) :
  (BATCH_SIZE = 0 → build_batches BATCH_SIZE rows = None) ∧
  (BATCH_SIZE < 0 → build_batches BATCH_SIZE rows = Some []).
Proof.
  unfold build_batches, py_range0. split.
  - by intros ->.
  - intros Hneg.
    assert ((BATCH_SIZE =? 0) = false) as -> by (apply Z.eqb_neq; lia).
    by assert ((BATCH_SIZE <? 0) = true) as -> by (apply Z.ltb_lt; lia).
Qed.

End Batches.

Section Validation.
Variables (MAX_ROWS : Z) (REQUIRED_FIELDS : list string).

Lemma first_missing_none fields (row : gmap string string) :
  first_missing fields row = None ↔ ∀ f, f ∈ fields → is_Some (row !! f).
Proof.
  induction fields as [| f rest IH]; simpl.
  - split; [intros _ f Hf; by apply elem_of_nil in Hf | done].
  - destruct (row !! f) as [v |] eqn:Ef.
    + rewrite IH. split; intros Hall g Hg; [| apply Hall; by right].
      apply elem_of_cons in Hg as [-> | Hg]; [by rewrite Ef | by apply Hall].
    + split; [done |]. intros Hall.
      destruct (Hall f (list_elem_of_here _ _)) as [v Hv]. congruence.
Qed.

Lemma first_missing_some fields (row : gmap string string) f :
  first_missing fields row = Some f → f ∈ fields ∧ row !! f = None.
Proof.
  induction fields as [| g rest IH]; simpl; [done |].
  destruct (row !! g) as [v |] eqn:Eg.
  - intros Hf. destruct (IH Hf). split; [by right | done].
  - intros [= <-]. split; [by left | done].
Qed.

Lemma validate_each_valid rows :
  validate_each REQUIRED_FIELDS rows = Valid ↔
  ∀ row, row ∈ rows → ∀ f, f ∈ REQUIRED_FIELDS → is_Some (row !! f).
Proof.
  induction rows as [| row rest IH]; simpl.
  - split; [intros _ row Hr; by apply elem_of_nil in Hr | done].
  - destruct (first_missing REQUIRED_FIELDS row) as [f |] eqn:Ef.
    + split; [done |]. intros Hall.
      apply first_missing_some in Ef as [Hin Hnone].
      destruct (Hall row (list_elem_of_here _ _) f Hin) as [v Hv]. congruence.
    + rewrite IH. pose proof (proj1 (first_missing_none _ _) Ef) as Hrow.
      split; intros Hall r Hr; [| apply Hall; by right].
      apply elem_of_cons in Hr as [-> | Hr]; [done | by apply Hall].
Qed.

(** X21. [validate_rows] accepts exactly the lists of at most
    [MAX_ROWS] rows in which every row has every required field.  The
    length is checked first: a list that is too long is refused as
    "too many rows" whatever its rows; otherwise a refusal names, as
    "missing <field>", a required field that some row lacks. *)
Theorem validate_rows_accepts (rows : list (gmap string string)) :
  (validate_rows MAX_ROWS REQUIRED_FIELDS rows = Valid ↔
   Z.of_nat (length rows) <= MAX_ROWS ∧
   ∀ row, row ∈ rows → ∀ f, f ∈ REQUIRED_FIELDS → is_Some (row !! f)) ∧
  (MAX_ROWS < Z.of_nat (length rows) →
   validate_rows MAX_ROWS REQUIRED_FIELDS rows = Invalid "too many rows") ∧
  (∀ msg, validate_rows MAX_ROWS REQUIRED_FIELDS rows = Invalid msg →
     msg = "too many rows" ∧ MAX_ROWS < Z.of_nat (length rows) ∨
     ∃ row f, row ∈ rows ∧ f ∈ REQUIRED_FIELDS ∧ row !! f = None ∧
              msg = "missing " +:+ f).
Proof.
  unfold validate_rows.
  destruct (MAX_ROWS <? Z.of_nat (length rows)) eqn:Hlen.
  - apply Z.ltb_lt in Hlen. split; [split; [done | lia] |].
    split; [done |]. intros msg [= <-]. by left.
  - apply Z.ltb_ge in Hlen. split.
    { rewrite validate_each_valid. split; [by intros ? | by intros [_ ?]]. }
    split; [lia |]. intros msg Hmsg. right.
    clear Hlen. induction rows as [| row rest IH]; simpl in Hmsg; [done |].
    destruct (first_missing REQUIRED_FIELDS row) as [f |] eqn:Ef.
    + injection Hmsg as <-. apply first_missing_some in Ef as [Hin Hnone].
      exists row, f. split; [by left | done].
    + destruct (IH Hmsg) as (r & f & Hr & Hf & Hnone & ->).
      exists r, f. split; [by right | done].
Qed.

(** X22. [split_rows] keeps the rows that are not empty, in their
    order, and drops the empty ones; applying it again changes nothing.
    It is what makes validation possible at all: where a field is
    required, a list that still holds an empty row is never valid. *)
Theorem split_rows_drops_empty (rows : list (gmap string string)) :
  (∀ row, row ∈ split_rows rows ↔ row ∈ rows ∧ row ≠ ∅) ∧
  sublist (split_rows rows) rows ∧
  split_rows (split_rows rows) = split_rows rows ∧
  (REQUIRED_FIELDS ≠ [] → ∅ ∈ rows →
   validate_rows MAX_ROWS REQUIRED_FIELDS rows ≠ Valid).
Proof.
  split; [| split; [| split]].
  - intros row. unfold split_rows.
    rewrite !list_elem_of_In, filter_In, negb_true_iff, bool_decide_eq_false.
    done.
  - unfold split_rows. induction rows as [| row rest IH]; simpl; [done |].
    destruct (negb _); [by apply sublist_skip | by apply sublist_cons].
  - unfold split_rows. induction rows as [| row rest IH]; simpl; [done |].
    destruct (negb (bool_decide (row = ∅))) eqn:E; simpl; [| done].
    by rewrite E, IH.
  - intros Hreq Hempty Hvalid. unfold validate_rows in Hvalid.
    destruct (MAX_ROWS <? Z.of_nat (length rows)); [discriminate Hvalid |].
    pose proof (proj1 (validate_each_valid rows) Hvalid) as Hall.
    destruct REQUIRED_FIELDS as [| f fields]; [done |].
    destruct (Hall ∅ Hempty f (list_elem_of_here _ _)) as [v Hv'].
    by rewrite lookup_empty in Hv'.
Qed.

End Validation.

Lemma build_batches_partition_witness :
  ∃ batches, build_batches 2 ["a"; "b"; "c"; "d"; "e"] = Some batches ∧
             concat batches = ["a"; "b"; "c"; "d"; "e"].
Proof.
  destruct (build_batches_partition 2 ["a"; "b"; "c"; "d"; "e"])
    as (batches & Hrun & Hcat & _); [lia |].
  by exists batches.
Defined.

Lemma build_batches_bad_size_witness :
  build_batches (-1) ["a"; "b"; "c"] = Some [] ∧
  build_batches 0 ["a"; "b"; "c"] = None.
Proof.
  split.
  - apply (build_batches_bad_size (-1) ["a"; "b"; "c"]). lia.
  - apply (build_batches_bad_size 0 ["a"; "b"; "c"]). reflexivity.
Defined.

Lemma validate_rows_accepts_witness :
  validate_rows 1 ["id"] [ {[ "id" := "7" ]}; {[ "id" := "8" ]} ]
  = Invalid "too many rows".
Proof.
  apply (validate_rows_accepts 1 ["id"] [ {[ "id" := "7" ]}; {[ "id" := "8" ]} ]).
  simpl. lia.
Defined.

Lemma split_rows_drops_empty_witness :
  validate_rows 10 ["id"] [ {[ "id" := "7" ]}; ∅ ] ≠ Valid.
Proof.
  apply (split_rows_drops_empty 10 ["id"] [ {[ "id" := "7" ]}; ∅ ]).
  - discriminate.
  - apply elem_of_cons. right. apply list_elem_of_here.
Defined.
